(** * Subtitle OCR: the text accumulator and its collaborators

    A shallow embedding of [src/text_processor.py] (class [TextProcessor]),
    of [ScreenCapture.capture] from [src/capture.py] and of
    [MainWindow._on_capture_tick] from [src/ui/main_window.py], together
    with the part of Python's [difflib.SequenceMatcher] that
    [TextProcessor] calls ([SequenceMatcher(None, a, b).ratio()]).
    Around them: the other methods of [ScreenCapture], the bright-pixel
    filter and [extract_text] of [src/ocr_engine.py], the selection frame
    of [src/ui/overlay.py], and the slots of [MainWindow] with the widgets
    they read and write.

    Conventions.
    - A Python [str] is a [string]: one [ascii] per code point, so the model
      covers the code points below 256 (Latin-1), with Python's own
      [str.lower] and [str.isspace] on that range.
    - Python integers that index sequences are [nat]; every subtraction the
      source performs on them is shown not to go below zero, or is written
      out where it can ([j2len.get(j-1, 0)] at [j = 0]).
    - [ratio()] is a float [2.0 * M / T].  The model keeps the exact
      rational [2M / T] in [Q]; the comparison with the threshold is the
      exact one.  For the default threshold (the double nearest to 4/5) and
      any text shorter than 10^15 characters both comparisons agree.
    - [datetime.now()] is an input of [add_text]; the calendar date of a
      [datetime] is kept as a day number, without Python's year-9999 limit.
    - File output runs in a small state-and-exception monad over the
      accumulator, the file system and a fault schedule. *)

From Stdlib Require Import Ascii String QArith.
From stdpp Require Import base decidable option list numbers strings pretty
  gmap sorting.

Local Open Scope nat_scope.

(** ** difflib.SequenceMatcher (isjunk = None, autojunk = True) *)

Module SequenceMatcher.
Section Matcher.
Context {A : Type} `{EqDecision A}.

(** The two sequences [self.a] and [self.b]. *)
Variables a b : list A.

(** [indices_from elt l j]: the positions of [elt] in [l], counted from
    [j], in increasing order: the list [b2j[elt]] that [__chain_b]
    builds with [enumerate(b)] and [append]. *)
Fixpoint indices_from (elt : A) (l : list A) (j : nat) : list nat :=
  match l with
  | [] => []
  | y :: l' =>
      if decide (elt = y) then j :: indices_from elt l' (S j)
      else indices_from elt l' (S j)
  end.

(** [__chain_b], "purge popular elements": with [n = len(b) >= 200], an
    element with more than [n // 100 + 1] occurrences is deleted from
    [b2j]. *)
Definition popular (elt : A) : bool :=
  let n := length b in
  bool_decide (200 ≤ n) &&
  bool_decide (n / 100 + 1 < length (indices_from elt b 0)).

(** [b2j.get(elt, nothing)].  [isjunk] is [None], so [bjunk] is empty and
    only popular elements are missing from [b2j]. *)
Definition b2j_get (elt : A) : list nat :=
  if popular elt then [] else indices_from elt b 0.

(** [j2len.get(j-1, 0)]: the key [-1] (at [j = 0]) is never present. *)
Definition j2len_get (j2len : gmap nat nat) (j : nat) : nat :=
  match j with
  | 0 => 0
  | S j' => default 0 (j2len !! j')
  end.

(** A match [(besti, bestj, bestsize)]. *)
Definition Match : Type := nat * nat * nat.

Definition size (m : Match) : nat := m.2.

Section Window.
Variables alo ahi blo bhi : nat.

(** The inner [for j in b2j.get(a[i], nothing)] of
    [find_longest_match], with its [continue] and [break]. *)
Fixpoint scan_row (j2len : gmap nat nat) (i : nat) (js : list nat)
    (newj2len : gmap nat nat) (best : Match) : gmap nat nat * Match :=
  match js with
  | [] => (newj2len, best)
  | j :: js' =>
      if bool_decide (j < blo) then scan_row j2len i js' newj2len best
      else if bool_decide (bhi ≤ j) then (newj2len, best)
      else
        let k := j2len_get j2len j + 1 in
        let newj2len' := <[j := k]> newj2len in
        if bool_decide (best.2 < k)
        then scan_row j2len i js' newj2len' (i + 1 - k, j + 1 - k, k)
        else scan_row j2len i js' newj2len' best
  end.

(** One iteration of [for i in range(alo, ahi)]. *)
Definition scan_step (st : gmap nat nat * Match) (i : nat)
    : gmap nat nat * Match :=
  match a !! i with
  | Some elt => scan_row st.1 i (b2j_get elt) ∅ st.2
  | None => (∅, st.2)
  end.

Definition scan : gmap nat nat * Match :=
  foldl scan_step (∅, (alo, blo, 0)) (seq alo (ahi - alo)).

(** [a[i] == b[j]] for indices in range. *)
Definition same_at (i j : nat) : bool :=
  match a !! i, b !! j with
  | Some x, Some y => bool_decide (x = y)
  | _, _ => false
  end.

(** [while besti > alo and bestj > blo and not isbjunk(b[bestj-1]) and
    a[besti-1] == b[bestj-1]]. *)
Fixpoint extend_left (besti bestj bestsize : nat) : Match :=
  match besti, bestj with
  | S i', S j' =>
      if bool_decide (alo < besti) && bool_decide (blo < bestj)
         && same_at i' j'
      then extend_left i' j' (S bestsize)
      else (besti, bestj, bestsize)
  | _, _ => (besti, bestj, bestsize)
  end.

(** [while besti+bestsize < ahi and bestj+bestsize < bhi and
    not isbjunk(b[bestj+bestsize]) and
    a[besti+bestsize] == b[bestj+bestsize]]; at most [fuel] rounds. *)
Fixpoint extend_right (fuel besti bestj bestsize : nat) : Match :=
  match fuel with
  | 0 => (besti, bestj, bestsize)
  | S fuel' =>
      if bool_decide (besti + bestsize < ahi)
         && bool_decide (bestj + bestsize < bhi)
         && same_at (besti + bestsize) (bestj + bestsize)
      then extend_right fuel' besti bestj (S bestsize)
      else (besti, bestj, bestsize)
  end.

(** [find_longest_match(alo, ahi, blo, bhi)].  The two loops that absorb
    junk on each side test [isbjunk], which is false everywhere, and
    never run. *)
Definition find_longest_match : Match :=
  let '(besti, bestj, bestsize) := scan.2 in
  let '(besti, bestj, bestsize) := extend_left besti bestj bestsize in
  extend_right (ahi - (besti + bestsize)) besti bestj bestsize.
End Window.

(** A window [(alo, ahi, blo, bhi)] waiting in [queue]. *)
Definition Window : Type := nat * nat * nat * nat.

(** The [while queue:] loop of [get_matching_blocks].  The head of the
    list is the last element of the Python list, the one [queue.pop()]
    takes.  [None]: out of fuel. *)
Fixpoint blocks_loop (fuel : nat) (queue : list Window)
    (matching_blocks : list Match) : option (list Match) :=
  match fuel with
  | 0 => None
  | S fuel' =>
      match queue with
      | [] => Some matching_blocks
      | (alo, ahi, blo, bhi) :: queue' =>
          let x := find_longest_match alo ahi blo bhi in
          let '(i, j, k) := x in
          if bool_decide (k = 0) then blocks_loop fuel' queue' matching_blocks
          else
            let q1 :=
              if bool_decide (alo < i) && bool_decide (blo < j)
              then (alo, i, blo, j) :: queue' else queue' in
            let q2 :=
              if bool_decide (i + k < ahi) && bool_decide (j + k < bhi)
              then (i + k, ahi, j + k, bhi) :: q1 else q1 in
            blocks_loop fuel' q2 (matching_blocks ++ [x])
      end
  end.

(** The weight of a queue bounds the number of rounds of the loop. *)
Definition weight (w : Window) : nat := 2 * (w.1.1.2 - w.1.1.1) + 1.

Definition queue_weight (queue : list Window) : nat :=
  foldr (λ w n, weight w + n) 0 queue.

(** The blocks the loop finds, in the order found; the fuel
    [2 * len(a) + 2] is enough (see [found_blocks_total]). *)
Definition found_blocks : list Match :=
  default [] (blocks_loop (2 * length a + 2) [(0, length a, 0, length b)] []).

(** The order of Python tuples on matches: by [i], then [j], then size. *)
Definition Match_le (m1 m2 : Match) : Prop :=
  m1.1.1 < m2.1.1
  ∨ (m1.1.1 = m2.1.1
     ∧ (m1.1.2 < m2.1.2 ∨ (m1.1.2 = m2.1.2 ∧ m1.2 ≤ m2.2))).

#[export] Instance Match_le_dec : RelDecision Match_le.
Proof. intros m1 m2. unfold Match_le. apply _. Defined.

(** The loop that merges adjacent blocks; [current] is [(i1, j1, k1)], and
    the result lists what the loop and the [if k1:] after it append to
    [non_adjacent]. *)
Fixpoint merge_adjacent (current : Match) (matching_blocks : list Match)
    : list Match :=
  let '(i1, j1, k1) := current in
  match matching_blocks with
  | [] => if bool_decide (k1 = 0) then [] else [(i1, j1, k1)]
  | (i2, j2, k2) :: rest =>
      if bool_decide (i1 + k1 = i2) && bool_decide (j1 + k1 = j2)
      then merge_adjacent (i1, j1, k1 + k2) rest
      else (if bool_decide (k1 = 0) then [] else [(i1, j1, k1)])
           ++ merge_adjacent (i2, j2, k2) rest
  end.

(** [get_matching_blocks()]: the blocks found, sorted, adjacent ones
    merged, and the dummy [(la, lb, 0)] at the end. *)
Definition get_matching_blocks : list Match :=
  merge_adjacent (0, 0, 0) (merge_sort Match_le found_blocks)
  ++ [(length a, length b, 0)].

(** [sum(triple[-1] for triple in self.get_matching_blocks())]. *)
Definition matches : nat := foldr (λ m n, size m + n) 0 get_matching_blocks.

(** [_calculate_ratio(matches, length)], as an exact rational. *)
Definition calculate_ratio (matches length : nat) : Q :=
  if bool_decide (length = 0) then 1%Q
  else (Z.of_nat (2 * matches) # Pos.of_nat length)%Q.

Definition ratio : Q := calculate_ratio matches (length a + length b).
End Matcher.
End SequenceMatcher.


(** ** Python strings *)

(** [c.isspace()] for a code point below 256: U+0009..U+000D,
    U+001C..U+0020, U+0085 and U+00A0. *)
Definition isspace (c : ascii) : bool :=
  let n := nat_of_ascii c in
  (bool_decide (9 ≤ n) && bool_decide (n ≤ 13))
  || (bool_decide (28 ≤ n) && bool_decide (n ≤ 32))
  || bool_decide (n = 133) || bool_decide (n = 160).

(** [c.lower()] for a code point below 256: A..Z and U+00C0..U+00DE
    except the multiplication sign U+00D7 move up by 32. *)
Definition lower_char (c : ascii) : ascii :=
  let n := nat_of_ascii c in
  if (bool_decide (65 ≤ n) && bool_decide (n ≤ 90))
     || (bool_decide (192 ≤ n) && bool_decide (n ≤ 222)
         && negb (bool_decide (n = 215)))
  then ascii_of_nat (n + 32) else c.

(** [s.lower()]. *)
Fixpoint lower (s : string) : string :=
  match s with
  | EmptyString => EmptyString
  | String c s' => String (lower_char c) (lower s')
  end.

Fixpoint lstrip (s : string) : string :=
  match s with
  | EmptyString => EmptyString
  | String c s' => if isspace c then lstrip s' else s
  end.

Fixpoint rstrip (s : string) : string :=
  match s with
  | EmptyString => EmptyString
  | String c s' =>
      match rstrip s' with
      | EmptyString => if isspace c then EmptyString else String c EmptyString
      | r => String c r
      end
  end.

(** [s.strip()]: leading and trailing whitespace removed. *)
Definition strip (s : string) : string := rstrip (lstrip s).

(** Every character of [s] is whitespace (this includes the empty string). *)
Fixpoint all_space (s : string) : bool :=
  match s with
  | EmptyString => true
  | String c s' => isspace c && all_space s'
  end.

(** Python's truth value of a [str]: [not s] holds for the empty string. *)
Definition is_empty (s : string) : bool := bool_decide (s = EmptyString).

(** The characters of a string, as the sequence [SequenceMatcher] sees. *)
Definition chars (s : string) : list ascii := String.list_ascii_of_string s.

(** ** datetime *)

Local Open Scope Z_scope.
Local Open Scope string_scope.

(** A [datetime]: the date as a day number ([toordinal()]), and the time
    of day. *)
Record datetime := {
  ordinal : Z;
  hour : Z;
  minute : Z;
  second : Z;
  microsecond : Z
}.

(** A value [datetime.now()] can return. *)
Definition valid_datetime (d : datetime) : Prop :=
  0 ≤ hour d < 24 ∧ 0 ≤ minute d < 60 ∧ 0 ≤ second d < 60
  ∧ 0 ≤ microsecond d < 1000000.

(** [dt + timedelta(seconds=n)]: [datetime.__add__] turns the time of day
    into seconds, adds, and splits again with [divmod]. *)
Definition add_seconds (dt : datetime) (n : Z) : datetime :=
  let total := hour dt * 3600 + minute dt * 60 + second dt + n in
  let days := ordinal dt + total / 86400 in
  let secs := total mod 86400 in
  let rem := secs mod 3600 in
  {| ordinal := days;
     hour := secs / 3600;
     minute := rem / 60;
     second := rem mod 60;
     microsecond := microsecond dt |}.


Definition digit (n : Z) : ascii := ascii_of_nat (48 + Z.to_nat n).

(** [%H], [%M], [%S]: two decimal digits, zero-padded. *)
Definition pad2 (n : Z) : string :=
  String (digit (n / 10)) (String (digit (n mod 10)) EmptyString).

(** [dt.strftime("%H:%M:%S")]. *)
Definition strftime_HMS (dt : datetime) : string :=
  pad2 (hour dt) +:+ ":" +:+ pad2 (minute dt) +:+ ":" +:+ pad2 (second dt).

(** [dt.strftime("%H:%M:%S,000")]. *)
Definition strftime_HMS000 (dt : datetime) : string :=
  strftime_HMS dt +:+ ",000".

Local Close Scope Z_scope.

(** ** TextProcessor: state and accumulation *)

Definition Entry : Type := datetime * string.

Record TextProcessor := {
  similarity_threshold : Q;
  entries : list Entry;
  _last_text : string
}.

(** [TextProcessor(similarity_threshold)]. *)
Definition init (similarity_threshold : Q) : TextProcessor :=
  {| similarity_threshold := similarity_threshold;
     entries := [];
     _last_text := "" |}.

(** The default [similarity_threshold=0.8]. *)
Definition default_threshold : Q := (8 # 10)%Q.

(** [get_similarity(text1, text2)]. *)
Definition get_similarity (text1 text2 : string) : Q :=
  SequenceMatcher.ratio (chars (lower text1)) (chars (lower text2)).

(** [_is_duplicate(text)]. *)
Definition _is_duplicate (self : TextProcessor) (text : string) : bool :=
  if is_empty (_last_text self) then false
  else
    let similarity :=
      SequenceMatcher.ratio (chars (lower (_last_text self)))
                            (chars (lower text)) in
    Qle_bool (similarity_threshold self) similarity.

(** [add_text(text)]; [now] is the value of [datetime.now()].  Returns the
    result and the accumulator after the call. *)
Definition add_text (now : datetime) (text : string) (self : TextProcessor)
    : bool * TextProcessor :=
  let text := strip text in
  if is_empty text then (false, self)
  else if _is_duplicate self text then (false, self)
  else
    (true,
     {| similarity_threshold := similarity_threshold self;
        entries := entries self ++ [(now, text)];
        _last_text := text |}).

(** [get_all_texts()]. *)
Definition get_all_texts (self : TextProcessor) : list string :=
  map snd (entries self).

(** [get_latest_text()]. *)
Definition get_latest_text (self : TextProcessor) : option string :=
  if is_empty (_last_text self) then None else Some (_last_text self).

(** [clear()]. *)
Definition clear (self : TextProcessor) : TextProcessor :=
  {| similarity_threshold := similarity_threshold self;
     entries := [];
     _last_text := "" |}.

(** [__len__]. *)
Definition len (self : TextProcessor) : nat := length (entries self).

(** ** State and exceptions *)

(** The exceptions the modelled calls raise. *)
Inductive exn :=
  | OSError            (* mkdir, open, write, close *)
  | ScreenShotError    (* mss: sct.grab *)
  | RuntimeError.      (* OCREngine.extract_text *)

(** A computation over a state [S]: it returns a value or raises, and
    leaves a state either way (what was mutated before a raise stays
    mutated). *)
Definition M (S A : Type) : Type := S → (exn + A) * S.

Definition ret {S A} (x : A) : M S A := λ s, (inr x, s).

Definition raise {S A} (e : exn) : M S A := λ s, (inl e, s).

Definition bind {S A B} (m : M S A) (f : A → M S B) : M S B :=
  λ s, match m s with
       | (inr x, s') => f x s'
       | (inl e, s') => (inl e, s')
       end.

Definition gets {S A} (f : S → A) : M S A := λ s, (inr (f s), s).

Definition modify {S} (f : S → S) : M S unit := λ s, (inr tt, f s).

#[export] Instance M_ret {S} : MRet (M S) := λ A, ret.
#[export] Instance M_bind {S} : MBind (M S) := λ A B f m, bind m f.

(** [for x in l: body(x)], stopping at the first raise. *)
Fixpoint for_each {S A} (l : list A) (body : A → M S unit) : M S unit :=
  match l with
  | [] => ret tt
  | x :: l' => body x;; for_each l' body
  end.

(** [enumerate(l, start)]. *)
Fixpoint enumerate {A} (l : list A) (start : nat) : list (nat * A) :=
  match l with
  | [] => []
  | x :: l' => (start, x) :: enumerate l' (S start)
  end.

(** ** File output *)

(** The file system as the export sees it: the contents of the files, and
    a fault schedule.  Each I/O call takes the next flag of the schedule;
    [true] makes the call raise [OSError]; with the schedule used up all
    calls succeed. *)
Record world := {
  files : gmap string string;
  faults : list bool
}.

(** The state an export runs in. *)
Record session := {
  self : TextProcessor;
  fs : world
}.

Definition next_fault (w : world) : bool * world :=
  match faults w with
  | [] => (false, w)
  | f :: fl => (f, {| files := files w; faults := fl |})
  end.

(** An I/O call: raises when the schedule says so, else applies [effect]
    to the files. *)
Definition io (effect : gmap string string → gmap string string)
    : M session unit :=
  λ s, let '(fault, w) := next_fault (fs s) in
       if fault then (inl OSError, {| self := self s; fs := w |})
       else (inr tt,
             {| self := self s;
                fs := {| files := effect (files w); faults := faults w |} |}).

(** [path.parent.mkdir(parents=True, exist_ok=True)]; directories are not
    part of [files]. *)
Definition mkdir_parents (path : string) : M session unit := io id.

(** [open(path, "w", encoding="utf-8")]: creates or truncates. *)
Definition open_w (path : string) : M session unit :=
  io (λ fl, <[path := ""]> fl).

(** [f.write(data)]. *)
Definition write (path data : string) : M session unit :=
  io (λ fl, <[path := default "" (fl !! path) +:+ data]> fl).

(** Leaving the [with] block without a raise closes the file.  (When the
    body raises the file is closed too, and the call raises all the
    same.) *)
Definition close (path : string) : M session unit := io id.

(** The line feed ["\n"]. *)
Definition LF : string := String "010"%char "".

(** [save_to_txt(filepath)]. *)
Definition save_to_txt (filepath : string) : M session unit :=
  mkdir_parents filepath;;
  open_w filepath;;
  es ← gets (λ s, entries (self s));
  for_each es (λ '(timestamp, text),
    let time_str := strftime_HMS timestamp in
    write filepath ("[" +:+ time_str +:+ "] " +:+ text +:+ LF));;
  close filepath.

(** [f"{i}"] for the cue number. *)
Definition str_of_nat (i : nat) : string := pretty i.

(** [save_to_srt(filepath)]. *)
Definition save_to_srt (filepath : string) : M session unit :=
  mkdir_parents filepath;;
  open_w filepath;;
  es ← gets (λ s, entries (self s));
  for_each (enumerate es 1) (λ '(i, (timestamp, text)),
    write filepath (str_of_nat i +:+ LF);;
    let start := timestamp in
    let end_ := add_seconds timestamp 2 in
    let start_str := strftime_HMS000 start in
    let end_str := strftime_HMS000 end_ in
    write filepath (start_str +:+ " --> " +:+ end_str +:+ LF);;
    write filepath (text +:+ LF +:+ LF));;
  close filepath.

(** [save(filepath, format)]. *)
Definition save (filepath format : string) : M session unit :=
  if bool_decide (lower format = "srt") then save_to_srt filepath
  else save_to_txt filepath.

(** The text of one line of the txt export (without its line feed), and
    one cue of the srt export, as the calls above write them. *)
Definition txt_line (e : Entry) : string :=
  "[" +:+ strftime_HMS e.1 +:+ "] " +:+ e.2.

Definition srt_block (ie : nat * Entry) : string :=
  (str_of_nat ie.1 +:+ LF)
  +:+ (strftime_HMS000 ie.2.1 +:+ " --> "
       +:+ strftime_HMS000 (add_seconds ie.2.1 2) +:+ LF)
  +:+ (ie.2.2 +:+ LF +:+ LF).

Definition concat_strings (l : list string) : string :=
  foldr String.append "" l.


(** ** ScreenCapture and the controller tick *)

(** A capture region [(x, y, width, height)]. *)
Definition Region : Type := Z * Z * Z * Z.

(** A region without pixels. *)
Definition empty_region (r : Region) : Prop :=
  (r.1.2 ≤ 0)%Z ∨ (r.2 ≤ 0)%Z.

Section Controller.
(** The collaborators: the screen grabber ([sct.grab] and
    [Image.frombytes]) and the OCR engine ([OCREngine.extract_text]),
    each returning a value or raising. *)
Variable Image : Type.
Variable grab : Region → exn + Image.
Variable extract_text : Image → exn + string.

(** The calls a tick makes, in order. *)
Inductive call :=
  | CallGrab (r : Region)
  | CallOCR (image : Image)
  | CallAdd (text : string).

Record ScreenCapture := { _region : option Region }.

(** [set_region(x, y, width, height)]. *)
Definition set_region (x y width height : Z) (sc : ScreenCapture)
    : ScreenCapture :=
  {| _region := Some (x, y, width, height) |}.

(** A collaborator call: logged, then its result returned or raised. *)
Definition perform {A} (c : call) (r : exn + A) : M (list call) A :=
  modify (λ log, (log ++ [c])%list);;
  match r with
  | inl e => raise e
  | inr x => ret x
  end.

(** [ScreenCapture.capture()].  [not self._region] holds for [None]; a
    4-tuple is true whatever its numbers. *)
Definition capture (sc : ScreenCapture) : M (list call) (option Image) :=
  match _region sc with
  | None => ret None
  | Some (x, y, width, height) =>
      let monitor := (x, y, width, height) in
      img ← perform (CallGrab monitor) (grab monitor);
      ret (Some img)
  end.

Record MainWindow := {
  mw_capture : ScreenCapture;      (* self.capture *)
  processor : TextProcessor;
  result_text : list string;       (* the lines of the QTextEdit *)
  stats_label : string;
  log : list call
}.

Definition set_log (l : list call) (w : MainWindow) : MainWindow :=
  {| mw_capture := mw_capture w; processor := processor w;
     result_text := result_text w; stats_label := stats_label w;
     log := l |}.

(** Runs a computation over the call log inside the window. *)
Definition logged {A} (m : M (list call) A) : M MainWindow A :=
  λ w, let '(r, l) := m (log w) in (r, set_log l w).

(** [add_text] run on the window's [processor]. *)
Definition on_processor (now : datetime) (text : string)
    : M MainWindow bool :=
  λ w, let '(added, p) := add_text now text (processor w) in
       (inr added,
        {| mw_capture := mw_capture w; processor := p;
           result_text := result_text w; stats_label := stats_label w;
           log := log w |}).

(** [self.processor.add_text(text)]. *)
Definition processor_add_text (now : datetime) (text : string)
    : M MainWindow bool :=
  logged (modify (λ log, (log ++ [CallAdd text])%list));;
  on_processor now text.

(** [self.result_text.append(text)]. *)
Definition result_text_append (text : string) : M MainWindow unit :=
  modify (λ w,
    {| mw_capture := mw_capture w; processor := processor w;
       result_text := (result_text w ++ [text])%list;
       stats_label := stats_label w; log := log w |}).

(** [_update_stats()]. *)
Definition _update_stats : M MainWindow unit :=
  modify (λ w,
    let count := len (processor w) in
    {| mw_capture := mw_capture w; processor := processor w;
       result_text := result_text w;
       stats_label := str_of_nat count +:+ " subtitle(s) captured";
       log := log w |}).

(** [_on_capture_tick()]; [now] is what [datetime.now()] returns in
    [add_text]. *)
Definition _on_capture_tick (now : datetime) : M MainWindow unit :=
  sc ← gets mw_capture;
  image ← logged (capture sc);
  match image with
  | None => ret tt
  | Some image =>
      text ← logged (perform (CallOCR image) (extract_text image));
      added ← processor_add_text now text;
      if added : bool then
        result_text_append text;;
        _update_stats
      else ret tt
  end.
End Controller.

Arguments CallGrab {Image}.
Arguments CallOCR {Image}.
Arguments CallAdd {Image}.
Arguments mw_capture {Image}.
Arguments processor {Image}.
Arguments result_text {Image}.
Arguments stats_label {Image}.
Arguments log {Image}.
Arguments capture {Image}.
Arguments _on_capture_tick {Image}.

(** ** ScreenCapture: the other methods *)

Section Grabber.
Variable Image : Type.
Variable grab : Region → exn + Image.

(** [ScreenCapture.capture_region(x, y, width, height)]. *)
Definition capture_region (x y width height : Z) : M (list (call Image)) Image :=
  let monitor := (x, y, width, height) in
  perform Image (CallGrab monitor) (grab monitor).

(** [get_region()]. *)
Definition get_region (sc : ScreenCapture) : option Region := _region sc.
End Grabber.

Arguments capture_region {Image}.

(** ** OCREngine *)

(** An RGB pixel, each channel 0..255, and a picture as its rows: the
    array [np.array(image)] of an image in mode "RGB", which is the mode
    of what [ScreenCapture] returns. *)
Definition Pixel : Type := Z * Z * Z.

Abbreviation Bitmap := (list (list Pixel)).

Record OCREngine := {
  lang : string;
  config : string;
  subtitle_mode : bool;
  brightness_threshold : Z
}.

(** [OCREngine(lang)]. *)
Definition new_engine (lang : string) : OCREngine :=
  {| lang := lang; config := "--psm 6 --oem 3";
     subtitle_mode := true; brightness_threshold := 240 |}.

(** [set_subtitle_mode(enabled, threshold)]. *)
Definition set_subtitle_mode (enabled : bool) (threshold : Z)
    (engine : OCREngine) : OCREngine :=
  {| lang := lang engine; config := config engine;
     subtitle_mode := enabled; brightness_threshold := threshold |}.

(** [set_language(lang)]. *)
Definition set_language (l : string) (engine : OCREngine) : OCREngine :=
  {| lang := l; config := config engine;
     subtitle_mode := subtitle_mode engine;
     brightness_threshold := brightness_threshold engine |}.

(** [np.max(img_array, axis=2)] at one pixel. *)
Definition brightness (px : Pixel) : Z := Z.max (Z.max px.1.1 px.1.2) px.2.

(** One pixel of [result]: [result] starts as zeros ([np.zeros_like]) and
    takes the pixels of the mask [brightness >= threshold]. *)
Definition keep_bright (threshold : Z) (px : Pixel) : Pixel :=
  if bool_decide (threshold ≤ brightness px)%Z then px else (0, 0, 0)%Z.

(** [_extract_bright_text(image)] on an RGB picture. *)
Definition _extract_bright_text (engine : OCREngine) (image : Bitmap)
    : Bitmap :=
  (λ row : list Pixel, keep_bright (brightness_threshold engine) <$> row)
  <$> (image : list (list Pixel)).

(** The pixel in row [r] and column [c]. *)
Definition pixel_at (image : Bitmap) (r c : nat) : option Pixel :=
  (image : list (list Pixel)) !! r ≫= (λ row, row !! c).

(** A picture whose channels are bytes. *)
Definition valid_bitmap (image : Bitmap) : Prop :=
  Forall (Forall (λ px : Pixel,
    (0 ≤ px.1.1 ≤ 255 ∧ 0 ≤ px.1.2 ≤ 255 ∧ 0 ≤ px.2 ≤ 255)%Z)) image.

(** What [pytesseract.image_to_string] does: it returns a text, or raises
    [TesseractNotFoundError], or raises something else. *)
Inductive tesseract_answer :=
  | Read (text : string)
  | TesseractNotFoundError
  | TesseractRaises (e : exn).

Section Engine.
(** The collaborators: what [preprocess_image] does after the bright
    pixels are picked (grey scale, contrast, sharpening, scaling, all
    PIL), and [pytesseract.image_to_string] with its language and
    configuration. *)
Variable Prepared : Type.
Variable enhance : Bitmap → Prepared.
Variable raw : Bitmap → Prepared.
Variable image_to_string : Prepared → string → string → tesseract_answer.

(** [preprocess_image(image)]. *)
Definition preprocess_image (engine : OCREngine) (image : Bitmap) : Prepared :=
  let image :=
    if subtitle_mode engine then _extract_bright_text engine image
    else image in
  enhance image.

(** [extract_text(image, preprocess)]; [raw] is the picture handed on as
    it is. *)
Definition extract_text (engine : OCREngine) (preprocess : bool)
    (image : Bitmap) : exn + string :=
  let image :=
    if preprocess then preprocess_image engine image else raw image in
  match image_to_string image (lang engine) (config engine) with
  | Read text => inr (strip text)
  | TesseractNotFoundError => inl RuntimeError
  | TesseractRaises e => inl e
  end.
End Engine.

Arguments preprocess_image {Prepared}.
Arguments extract_text {Prepared}.

(** ** SelectionFrame

    The frame the user drags over the subtitles.  It has no window frame
    of its own ([FramelessWindowHint]), so [frameGeometry()] is
    [geometry()]; the geometry is what the last [setGeometry] or [move]
    asked for.  Painting is left out. *)

(** A [QPoint]. *)
Definition Point : Type := Z * Z.

Definition point_sub (p q : Point) : Point := (p.1 - q.1, p.2 - q.2)%Z.

Inductive CursorShape :=
  | ArrowCursor | SizeFDiagCursor | SizeHorCursor | SizeVerCursor
  | SizeAllCursor.

Inductive Key := Key_Return | Key_Enter | Key_Escape | Key_other.

(** The signals of the frame. *)
Inductive signal :=
  | region_selected (x y width height : Z)
  | selection_cancelled.

Record SelectionFrame := {
  geometry : Region;
  _drag_pos : option Point;
  _resizing : bool;
  _resize_edge : option string;
  cursor : CursorShape;
  visible : bool
}.

Definition EDGE_MARGIN : Z := 10.
Definition minimumWidth : Z := 100.
Definition minimumHeight : Z := 50.

Definition frame_x (f : SelectionFrame) : Z := (geometry f).1.1.1.
Definition frame_y (f : SelectionFrame) : Z := (geometry f).1.1.2.
Definition width (f : SelectionFrame) : Z := (geometry f).1.2.
Definition height (f : SelectionFrame) : Z := (geometry f).2.

(** The frame after [__init__]. *)
Definition new_frame : SelectionFrame :=
  {| geometry := (100, 100, 400, 100)%Z; _drag_pos := None;
     _resizing := false; _resize_edge := None;
     cursor := ArrowCursor; visible := false |}.

(** [sub in s] for strings. *)
Definition contains (sub s : string) : bool :=
  match String.index 0 sub s with Some _ => true | None => false end.

(** An optional string taken as a condition. *)
Definition truthy (s : option string) : bool :=
  match s with Some s => negb (is_empty s) | None => false end.

(** [_get_edge(pos)]. *)
Definition _get_edge (pos : Point) (f : SelectionFrame) : option string :=
  let '(x, y) := pos in
  let '(w, h) := (width f, height f) in
  let margin := EDGE_MARGIN in
  let on_right := bool_decide (w - margin ≤ x)%Z && bool_decide (x ≤ w)%Z in
  let on_bottom := bool_decide (h - margin ≤ y)%Z && bool_decide (y ≤ h)%Z in
  if on_right && on_bottom then Some "bottom-right"
  else if on_right then Some "right"
  else if on_bottom then Some "bottom"
  else None.

Section Frame.
(** [bool(p)] of a [QPoint], which a binding may define (as
    [not p.isNull()]) or leave to the default, true. *)
Variable point_bool : Point → bool.

(** [mousePressEvent(event)]; [left_button] tells whether [event.button()] is the
    left button, [pos] is [event.pos()] and [global]
    [event.globalPosition().toPoint()]. *)
Definition mousePressEvent (left_button : bool) (pos global : Point)
    (f : SelectionFrame) : SelectionFrame :=
  if left_button then
    let edge := _get_edge pos f in
    if truthy edge then
      {| geometry := geometry f; _drag_pos := _drag_pos f;
         _resizing := true; _resize_edge := edge;
         cursor := cursor f; visible := visible f |}
    else
      {| geometry := geometry f;
         _drag_pos := Some (point_sub global (frame_x f, frame_y f));
         _resizing := _resizing f; _resize_edge := _resize_edge f;
         cursor := cursor f; visible := visible f |}
  else f.

Definition setGeometry (geo : Region) (f : SelectionFrame) : SelectionFrame :=
  {| geometry := geo; _drag_pos := _drag_pos f;
     _resizing := _resizing f; _resize_edge := _resize_edge f;
     cursor := cursor f; visible := visible f |}.

(** [move(p)]: the top left corner goes to [p]. *)
Definition move (p : Point) (f : SelectionFrame) : SelectionFrame :=
  setGeometry (p.1, p.2, width f, height f) f.

Definition setCursor (c : CursorShape) (f : SelectionFrame) : SelectionFrame :=
  {| geometry := geometry f; _drag_pos := _drag_pos f;
     _resizing := _resizing f; _resize_edge := _resize_edge f;
     cursor := c; visible := visible f |}.

(** [mouseMoveEvent(event)]. *)
Definition mouseMoveEvent (pos global : Point) (f : SelectionFrame)
    : SelectionFrame :=
  if _resizing f && truthy (_resize_edge f) then
    let global_pos := global in
    let geo := geometry f in
    let edge := default "" (_resize_edge f) in
    let geo :=
      if contains "right" edge then
        let new_width := Z.max minimumWidth (global_pos.1 - geo.1.1.1) in
        (geo.1.1.1, geo.1.1.2, new_width, geo.2)
      else geo in
    let geo :=
      if contains "bottom" edge then
        let new_height := Z.max minimumHeight (global_pos.2 - geo.1.1.2) in
        (geo.1.1.1, geo.1.1.2, geo.1.2, new_height)
      else geo in
    setGeometry geo f
  else if match _drag_pos f with Some p => point_bool p | None => false end
  then move (point_sub global (default (0, 0)%Z (_drag_pos f))) f
  else
    let edge := _get_edge pos f in
    if bool_decide (edge = Some "bottom-right") then setCursor SizeFDiagCursor f
    else if bool_decide (edge = Some "right") then setCursor SizeHorCursor f
    else if bool_decide (edge = Some "bottom") then setCursor SizeVerCursor f
    else setCursor SizeAllCursor f.

(** [mouseReleaseEvent(event)]. *)
Definition mouseReleaseEvent (f : SelectionFrame) : SelectionFrame :=
  {| geometry := geometry f; _drag_pos := None;
     _resizing := false; _resize_edge := None;
     cursor := cursor f; visible := visible f |}.

Definition hide (f : SelectionFrame) : SelectionFrame :=
  {| geometry := geometry f; _drag_pos := _drag_pos f;
     _resizing := _resizing f; _resize_edge := _resize_edge f;
     cursor := cursor f; visible := false |}.

(** [show_overlay()]. *)
Definition show_overlay (f : SelectionFrame) : SelectionFrame :=
  {| geometry := geometry f; _drag_pos := _drag_pos f;
     _resizing := _resizing f; _resize_edge := _resize_edge f;
     cursor := cursor f; visible := true |}.

(** [_confirm_selection()]: the frame and the signal it emits. *)
Definition _confirm_selection (f : SelectionFrame)
    : SelectionFrame * option signal :=
  let geo := geometry f in
  (hide f, Some (region_selected geo.1.1.1 geo.1.1.2 geo.1.2 geo.2)).

(** [_cancel_selection()]. *)
Definition _cancel_selection (f : SelectionFrame)
    : SelectionFrame * option signal :=
  (hide f, Some selection_cancelled).

(** [keyPressEvent(event)]. *)
Definition keyPressEvent (key : Key) (f : SelectionFrame)
    : SelectionFrame * option signal :=
  match key with
  | Key_Return | Key_Enter => _confirm_selection f
  | Key_Escape => _cancel_selection f
  | Key_other => (f, None)
  end.

(** What reaches the frame. *)
Inductive frame_event :=
  | MousePress (left_button : bool) (pos global : Point)
  | MouseMove (pos global : Point)
  | MouseRelease
  | KeyPress (key : Key)
  | ClickOK                   (* confirm_btn.clicked *)
  | ClickX.                   (* cancel_btn.clicked *)

Definition frame_step (e : frame_event) (f : SelectionFrame)
    : SelectionFrame * option signal :=
  match e with
  | MousePress left_button pos global =>
      (mousePressEvent left_button pos global f, None)
  | MouseMove pos global => (mouseMoveEvent pos global f, None)
  | MouseRelease => (mouseReleaseEvent f, None)
  | KeyPress key => keyPressEvent key f
  | ClickOK => _confirm_selection f
  | ClickX => _cancel_selection f
  end.

(** The frame after a list of events, and the signals emitted on the
    way. *)
Definition frame_run (es : list frame_event) (f : SelectionFrame)
    : SelectionFrame * list signal :=
  foldl (λ '(f, out) e,
           let '(f', s) := frame_step e f in
           (f', (out ++ match s with Some s => [s] | None => [] end)%list))
        (f, []) es.
End Frame.

(** A region with the frame's minimum size at least. *)
Definition roomy (r : Region) : Prop :=
  (minimumWidth ≤ r.1.2)%Z ∧ (minimumHeight ≤ r.2)%Z.

(** ** MainWindow: the control panel

    The widgets and flags of [MainWindow] that its slots read and write.
    Left out: the style sheets, and the interval label, whose text comes
    from formatting a float. *)

(** The two items of [format_combo]. *)
Inductive Format := Txt | Srt.

(** [format_combo.currentText()]. *)
Definition currentText (f : Format) : string :=
  match f with Txt => "txt" | Srt => "srt" end.

(** What the slots show to the user, in order. *)
Inductive shown :=
  | Warning (title : string)
  | Information (title : string)
  | SaveFileName (default_name file_filter : string).

Record Controls := {
  is_running : bool;
  region_set : bool;
  start_btn : bool;            (* isEnabled() *)
  stop_btn : bool;
  select_btn : bool;
  timer_active : bool;         (* capture_timer.isActive() *)
  timer_interval : Z;
  interval_slider : Z;         (* value() *)
  brightness_slider : Z;
  brightness_label : string;
  region_label : string;
  status : string;             (* statusBar().currentMessage() *)
  format_combo : Format;
  window_visible : bool;
  ocr : OCREngine;
  dialogs : list shown;
  disk : world
}.

Record App := {
  win : MainWindow Bitmap;
  ctl : Controls;
  overlay : SelectionFrame
}.

Definition with_ctl (f : Controls → Controls) (app : App) : App :=
  {| win := win app; ctl := f (ctl app); overlay := overlay app |}.

Definition with_win (f : MainWindow Bitmap → MainWindow Bitmap) (app : App)
    : App :=
  {| win := f (win app); ctl := ctl app; overlay := overlay app |}.

(** [statusBar().showMessage(message)]. *)
Definition showMessage (message : string) (c : Controls) : Controls :=
  {| is_running := is_running c; region_set := region_set c;
     start_btn := start_btn c; stop_btn := stop_btn c;
     select_btn := select_btn c; timer_active := timer_active c;
     timer_interval := timer_interval c;
     interval_slider := interval_slider c;
     brightness_slider := brightness_slider c;
     brightness_label := brightness_label c;
     region_label := region_label c; status := message;
     format_combo := format_combo c;
     window_visible := window_visible c;
     ocr := ocr c;
     dialogs := dialogs c; disk := disk c |}.

(** A message box or a file dialog comes up. *)
Definition show_dialog (d : shown) (c : Controls) : Controls :=
  {| is_running := is_running c; region_set := region_set c;
     start_btn := start_btn c; stop_btn := stop_btn c;
     select_btn := select_btn c; timer_active := timer_active c;
     timer_interval := timer_interval c;
     interval_slider := interval_slider c;
     brightness_slider := brightness_slider c;
     brightness_label := brightness_label c;
     region_label := region_label c; status := status c;
     format_combo := format_combo c;
     window_visible := window_visible c;
     ocr := ocr c;
     dialogs := (dialogs c ++ [d])%list; disk := disk c |}.

(** [f"{n}"] for an integer. *)
Definition str_of_Z (n : Z) : string := pretty n.

(** The window as [__init__] leaves it and [main] shows it; [tesseract] is
    the answer of [check_tesseract_installed()], and the warning of
    [_check_dependencies] comes up without it. *)
Definition new_app (tesseract : bool) (w : world) : App :=
  {| win := {| mw_capture := {| _region := None |};
               processor := init default_threshold;
               result_text := [];
               stats_label := "0 subtitles captured";
               log := [] |};
     ctl := {| is_running := false; region_set := false;
               start_btn := false; stop_btn := false; select_btn := true;
               timer_active := false; timer_interval := 0;
               interval_slider := 500; brightness_slider := 240;
               brightness_label := "240";
               region_label := "No region selected";
               status := "Ready"; format_combo := Txt;
               window_visible := true;
               ocr := new_engine "eng";
               dialogs := if tesseract then []
                          else [Warning "Tesseract Not Found"];
               disk := w |};
     overlay := new_frame |}.

(** [_select_region()]: the window hides and, 100 ms later, the overlay
    shows. *)
Definition _select_region (app : App) : App :=
  {| win := win app;
     ctl := let c := ctl app in
       {| is_running := is_running c; region_set := region_set c;
          start_btn := start_btn c; stop_btn := stop_btn c;
          select_btn := select_btn c; timer_active := timer_active c;
          timer_interval := timer_interval c;
          interval_slider := interval_slider c;
          brightness_slider := brightness_slider c;
          brightness_label := brightness_label c;
          region_label := region_label c; status := status c;
          format_combo := format_combo c;
          window_visible := false; ocr := ocr c;
          dialogs := dialogs c; disk := disk c |};
     overlay := show_overlay (overlay app) |}.

(** [_on_region_selected(x, y, w, h)]. *)
Definition _on_region_selected (x y w h : Z) (app : App) : App :=
  {| win := {| mw_capture := set_region x y w h (mw_capture (win app));
               processor := processor (win app);
               result_text := result_text (win app);
               stats_label := stats_label (win app);
               log := log (win app) |};
     ctl := let c := ctl app in
       {| is_running := is_running c; region_set := true;
          start_btn := true; stop_btn := stop_btn c;
          select_btn := select_btn c; timer_active := timer_active c;
          timer_interval := timer_interval c;
          interval_slider := interval_slider c;
          brightness_slider := brightness_slider c;
          brightness_label := brightness_label c;
          region_label :=
            "Region: (" +:+ str_of_Z x +:+ ", " +:+ str_of_Z y +:+ ") - "
            +:+ str_of_Z w +:+ "x" +:+ str_of_Z h;
          status := "Region selected: " +:+ str_of_Z w +:+ "x" +:+ str_of_Z h;
          format_combo := format_combo c;
          window_visible := true; ocr := ocr c;
          dialogs := dialogs c; disk := disk c |};
     overlay := overlay app |}.

(** [_on_selection_cancelled()]. *)
Definition _on_selection_cancelled (app : App) : App :=
  with_ctl (λ c,
    {| is_running := is_running c; region_set := region_set c;
       start_btn := start_btn c; stop_btn := stop_btn c;
       select_btn := select_btn c; timer_active := timer_active c;
       timer_interval := timer_interval c;
       interval_slider := interval_slider c;
       brightness_slider := brightness_slider c;
       brightness_label := brightness_label c;
       region_label := region_label c; status := "Selection cancelled";
       format_combo := format_combo c;
       window_visible := true; ocr := ocr c;
       dialogs := dialogs c; disk := disk c |}) app.

(** [_on_interval_changed(value)]: the slider has taken [value]. *)
Definition _on_interval_changed (value : Z) (app : App) : App :=
  with_ctl (λ c,
    {| is_running := is_running c; region_set := region_set c;
       start_btn := start_btn c; stop_btn := stop_btn c;
       select_btn := select_btn c; timer_active := timer_active c;
       timer_interval := if is_running c then value else timer_interval c;
       interval_slider := value;
       brightness_slider := brightness_slider c;
       brightness_label := brightness_label c;
       region_label := region_label c; status := status c;
       format_combo := format_combo c;
       window_visible := window_visible c;
       ocr := ocr c;
       dialogs := dialogs c; disk := disk c |}) app.

(** [_on_brightness_changed(value)]: the slider has taken [value]. *)
Definition _on_brightness_changed (value : Z) (app : App) : App :=
  with_ctl (λ c,
    {| is_running := is_running c; region_set := region_set c;
       start_btn := start_btn c; stop_btn := stop_btn c;
       select_btn := select_btn c; timer_active := timer_active c;
       timer_interval := timer_interval c;
       interval_slider := interval_slider c;
       brightness_slider := value;
       brightness_label := str_of_Z value;
       region_label := region_label c; status := status c;
       format_combo := format_combo c;
       window_visible := window_visible c;
       ocr := set_subtitle_mode true value (ocr c);
       dialogs := dialogs c; disk := disk c |}) app.

(** [_start_capture()]. *)
Definition _start_capture (app : App) : App :=
  if negb (region_set (ctl app)) then app
  else
    with_ctl (λ c,
      let interval := interval_slider c in
      {| is_running := true; region_set := region_set c;
         start_btn := false; stop_btn := true;
         select_btn := false; timer_active := true;
         timer_interval := interval;
         interval_slider := interval_slider c;
         brightness_slider := brightness_slider c;
         brightness_label := brightness_label c;
         region_label := region_label c; status := "Capturing...";
         format_combo := format_combo c;
         window_visible := window_visible c;
         ocr := ocr c;
         dialogs := dialogs c; disk := disk c |}) app.

(** [_stop_capture()]. *)
Definition _stop_capture (app : App) : App :=
  with_ctl (λ c,
    {| is_running := false; region_set := region_set c;
       start_btn := true; stop_btn := false;
       select_btn := true; timer_active := false;
       timer_interval := timer_interval c;
       interval_slider := interval_slider c;
       brightness_slider := brightness_slider c;
       brightness_label := brightness_label c;
       region_label := region_label c; status := "Stopped";
       format_combo := format_combo c;
       window_visible := window_visible c;
       ocr := ocr c;
       dialogs := dialogs c; disk := disk c |}) app.

(** The user picks an item of [format_combo]. *)
Definition pick_format (f : Format) (app : App) : App :=
  with_ctl (λ c,
    {| is_running := is_running c; region_set := region_set c;
       start_btn := start_btn c; stop_btn := stop_btn c;
       select_btn := select_btn c; timer_active := timer_active c;
       timer_interval := timer_interval c;
       interval_slider := interval_slider c;
       brightness_slider := brightness_slider c;
       brightness_label := brightness_label c;
       region_label := region_label c; status := status c;
       format_combo := f;
       window_visible := window_visible c;
       ocr := ocr c;
       dialogs := dialogs c; disk := disk c |}) app.

Definition set_disk (w : world) (c : Controls) : Controls :=
  {| is_running := is_running c; region_set := region_set c;
     start_btn := start_btn c; stop_btn := stop_btn c;
     select_btn := select_btn c; timer_active := timer_active c;
     timer_interval := timer_interval c;
     interval_slider := interval_slider c;
     brightness_slider := brightness_slider c;
     brightness_label := brightness_label c;
     region_label := region_label c; status := status c;
     format_combo := format_combo c;
     window_visible := window_visible c;
     ocr := ocr c;
     dialogs := dialogs c; disk := w |}.

Definition set_processor (p : TextProcessor) (w : MainWindow Bitmap)
    : MainWindow Bitmap :=
  {| mw_capture := mw_capture w; processor := p;
     result_text := result_text w; stats_label := stats_label w;
     log := log w |}.

(** [_clear_results()]. *)
Definition _clear_results (app : App) : App :=
  let w := win app in
  let w := {| mw_capture := mw_capture w; processor := clear (processor w);
              result_text := []; stats_label := stats_label w;
              log := log w |} in
  let w := (_update_stats Bitmap w).2 in
  {| win := w; ctl := showMessage "Cleared" (ctl app);
     overlay := overlay app |}.

(** [self.processor.save(filepath, format_type)] on the window's
    accumulator and the disk. *)
Definition processor_save (filepath format : string) : M App unit :=
  λ app,
    let '(r, s) := save filepath format
                     {| self := processor (win app); fs := disk (ctl app) |} in
    (r, {| win := set_processor (self s) (win app);
           ctl := set_disk (fs s) (ctl app);
           overlay := overlay app |}).

(** [_save_to_file()]; [chosen] is the path that
    [QFileDialog.getSaveFileName] returns, empty when the user cancels.
    The dialogs are modal.  A timer tick that arrives while one is open is
    an event of its own: ticks only add entries, so the slot ends in the
    state it would reach with those ticks run before it (after it, for the
    two message boxes). *)
Definition _save_to_file (chosen : string) : M App unit :=
  n ← gets (λ app, len (processor (win app)));
  if bool_decide (n = 0%nat) then
    modify (with_ctl (show_dialog (Information "Nothing to Save")))
  else
    format_type ← gets (λ app, currentText (format_combo (ctl app)));
    let '(file_filter, default_name) :=
      if bool_decide (format_type = "srt")
      then ("SRT Files (*.srt)", "subtitles.srt")
      else ("Text Files (*.txt)", "subtitles.txt") in
    modify (with_ctl (show_dialog (SaveFileName default_name file_filter)));;
    let filepath := chosen in
    if negb (is_empty filepath) then
      processor_save filepath format_type;;
      modify (with_ctl (showMessage ("Saved to " +:+ filepath)));;
      modify (with_ctl (show_dialog (Information "Saved")))
    else ret tt.

Section Ticks.
(** The collaborators: the binding's [bool] of a point, the screen
    grabber, and what the OCR engine calls. *)
Variable point_bool : Point → bool.
Variable grab : Region → exn + Bitmap.
Variable Prepared : Type.
Variable enhance : Bitmap → Prepared.
Variable raw : Bitmap → Prepared.
Variable image_to_string : Prepared → string → string → tesseract_answer.

(** [_on_capture_tick] of the window, with [self.ocr.extract_text]. *)
Definition app_tick (now : datetime) : M App unit :=
  λ app,
    let '(r, w) :=
      _on_capture_tick grab
        (extract_text enhance raw image_to_string (ocr (ctl app)) true)
        now (win app) in
    (r, {| win := w; ctl := ctl app; overlay := overlay app |}).

(** A signal of the frame reaches the slot connected to it. *)
Definition deliver (s : option signal) (app : App) : App :=
  match s with
  | Some (region_selected x y w h) => _on_region_selected x y w h app
  | Some selection_cancelled => _on_selection_cancelled app
  | None => app
  end.

(** An event on the frame: the frame handles it, then what it emits is
    delivered. *)
Definition on_frame (e : frame_event) (app : App) : App :=
  let '(f, s) := frame_step point_bool e (overlay app) in
  deliver s {| win := win app; ctl := ctl app; overlay := f |}.

(** What the user and the timer can do.  A button that is disabled or on
    a hidden window cannot be clicked, the frame gets events only while it
    shows, a slider gives a value of its range, and the timer fires only
    while it is active. *)
Inductive event :=
  | ClickSelect
  | OnFrame (e : frame_event)
  | ClickStart
  | ClickStop
  | SlideInterval (value : Z)
  | SlideBrightness (value : Z)
  | PickFormat (f : Format)
  | TimerTick (now : datetime)
  | ClickClear
  | ClickSave (chosen : string).

Definition enabled (app : App) (e : event) : Prop :=
  let c := ctl app in
  match e with
  | ClickSelect => window_visible c = true ∧ select_btn c = true
  | OnFrame _ => visible (overlay app) = true
  | ClickStart => window_visible c = true ∧ start_btn c = true
  | ClickStop => window_visible c = true ∧ stop_btn c = true
  | SlideInterval v => window_visible c = true ∧ (200 ≤ v ≤ 2000)%Z
  | SlideBrightness v => window_visible c = true ∧ (150 ≤ v ≤ 255)%Z
  | PickFormat _ | ClickClear | ClickSave _ => window_visible c = true
  | TimerTick _ => timer_active c = true
  end.

(** The slot an event runs.  An exception out of a slot leaves what the
    slot did before it; the states after it are kept, as they are with an
    exception hook installed. *)
Definition handle (e : event) (app : App) : App :=
  match e with
  | ClickSelect => _select_region app
  | OnFrame e => on_frame e app
  | ClickStart => _start_capture app
  | ClickStop => _stop_capture app
  | SlideInterval v => _on_interval_changed v app
  | SlideBrightness v => _on_brightness_changed v app
  | PickFormat f => pick_format f app
  | TimerTick now => (app_tick now app).2
  | ClickClear => _clear_results app
  | ClickSave chosen => (_save_to_file chosen app).2
  end.

(** The states of a session. *)
Inductive running (tesseract : bool) (w : world) : App → Prop :=
  | running_init : running tesseract w (new_app tesseract w)
  | running_step app e :
      running tesseract w app → enabled app e →
      running tesseract w (handle e app).

(** Every event of a list is enabled when its turn comes. *)
Fixpoint enabled_all (app : App) (es : list event) : Prop :=
  match es with
  | [] => True
  | e :: es => enabled app e ∧ enabled_all (handle e app) es
  end.
End Ticks.

(** What ties the controls together in a session. *)
Definition controls_ok (app : App) : Prop :=
  let c := ctl app in
  timer_active c = is_running c
  ∧ stop_btn c = is_running c
  ∧ select_btn c = negb (is_running c)
  ∧ start_btn c = region_set c && negb (is_running c)
  ∧ window_visible c = negb (visible (overlay app))
  ∧ roomy (geometry (overlay app))
  ∧ (∀ r, _region (mw_capture (win app)) = Some r → roomy r)
  ∧ (is_running c = true → window_visible c = true)
  ∧ (is_running c = true → region_set c = true)
  ∧ (region_set c = true ↔ is_Some (_region (mw_capture (win app))))
  ∧ (is_running c = true → timer_interval c = interval_slider c)
  ∧ (200 ≤ interval_slider c ≤ 2000)%Z
  ∧ (150 ≤ brightness_slider c ≤ 255)%Z
  ∧ brightness_label c = str_of_Z (brightness_slider c)
  ∧ ocr c = {| lang := "eng"; config := "--psm 6 --oem 3";
               subtitle_mode := true;
               brightness_threshold := brightness_slider c |}.

(** ** The accumulator's life: reachable states *)

(** One operation on the accumulator.  An export leaves it as it is (see
    [save_keeps_self]), whatever the file system does. *)
Inductive operation :=
  | OpAdd (now : datetime) (text : string)
  | OpClear
  | OpExport (filepath format : string) (w : world).

Definition apply_op (p : TextProcessor) (o : operation) : TextProcessor :=
  match o with
  | OpAdd now text => (add_text now text p).2
  | OpClear => clear p
  | OpExport filepath format w =>
      self (save filepath format {| self := p; fs := w |}).2
  end.

(** The states the operations lead to from a fresh accumulator. *)
Inductive reachable (threshold : Q) : TextProcessor → Prop :=
  | reachable_init : reachable threshold (init threshold)
  | reachable_step p o :
      reachable threshold p → reachable threshold (apply_op p o).

(** Neighbours in a list. *)
Inductive adjacent {A} (x y : A) : list A → Prop :=
  | adjacent_here l : adjacent x y (x :: y :: l)
  | adjacent_later z l : adjacent x y l → adjacent x y (z :: l).


(** ** Auxiliary notions for the proofs about the matcher *)

Import SequenceMatcher.

Local Close Scope string_scope.

(** After [n] rows of the scan of a window: a length in [j2len] is at most
    [n], fits between [blo] and its column, and its column is below
    [bhi]. *)
Definition row_ok (blo bhi n : nat) (j2len : gmap nat nat) : Prop :=
  ∀ j v, j2len !! j = Some v → v ≤ n ∧ blo + v ≤ j + 1 ∧ j < bhi.

(** A match inside the window, ending within the first [n] rows. *)
Definition best_ok (alo blo bhi n : nat) (best : Match) : Prop :=
  alo ≤ best.1.1 ∧ best.1.1 + best.2 ≤ alo + n
  ∧ blo ≤ best.1.2 ∧ best.1.2 + best.2 ≤ bhi.

(** The sum of the sizes of a list of matches. *)
Definition total (ms : list Match) : nat := foldr (λ m n, size m + n) 0 ms.

(** A window with [alo ≤ ahi] and [blo ≤ bhi]. *)
Definition window_ok (w : Window) : Prop :=
  w.1.1.1 ≤ w.1.1.2 ∧ w.1.2 ≤ w.2.

(** The rows and the columns a queue still covers. *)
Definition rows (queue : list Window) : nat :=
  foldr (λ w n, (w.1.1.2 - w.1.1.1) + n) 0 queue.

Definition columns (queue : list Window) : nat :=
  foldr (λ w n, (w.2 - w.1.2) + n) 0 queue.

Section Diagonal.
Context {A : Type} `{EqDecision A}.
Variable x : list A.
(** [x[i]] is a key of [b2j] (it is in range and not popular). *)
Definition keyed (i : nat) : bool :=
  match x !! i with
  | Some elt => negb (popular x elt)
  | None => false
  end.

(** The number of keyed positions in a row that end at [i]. *)
Fixpoint diag (i : nat) : nat :=
  match i with
  | 0 => if keyed 0 then 1 else 0
  | S i' => if keyed i then S (diag i') else 0
  end.

Definition prev_diag (i : nat) : nat :=
  match i with
  | 0 => 0
  | S i' => diag i'
  end.

(** The state of the scan of [x] against itself before row [i]: the
    lengths in [j2len] are bounded by the runs of their column and of the
    last row, the length on the diagonal is the run itself, and the best
    match lies on the diagonal and is as long as every run so far. *)
Definition diag_inv (i : nat) (st : gmap nat nat * Match) : Prop :=
  (∀ j v, st.1 !! j = Some v → v ≤ diag j ∧ v ≤ prev_diag i)
  ∧ j2len_get st.1 i = prev_diag i
  ∧ st.2.1.1 = st.2.1.2
  ∧ st.2.1.1 + st.2.2 ≤ i
  ∧ ∀ i', i' < i → diag i' ≤ st.2.2.
End Diagonal.

Local Open Scope string_scope.

(** ** The export as a list of effects

    What the proofs below use to describe an export: its I/O calls in
    order, each as an effect on the files. *)

Definition effect : Type := gmap string string → gmap string string.

Definition open_effect (path : string) : effect := λ fl, <[path := ""]> fl.

Definition write_effect (path data : string) : effect :=
  λ fl, <[path := default "" (fl !! path) +:+ data]> fl.

(** The I/O calls of [save_to_txt] and [save_to_srt], in order, as effects on the files. *)
Definition txt_effects (path : string) (es : list Entry) : list effect :=
  [id; open_effect path]
  ++ map (λ e, write_effect path (txt_line e +:+ LF)) es
  ++ [id].

Definition srt_writes (path : string) (ie : nat * Entry) : list effect :=
  [write_effect path (str_of_nat ie.1 +:+ LF);
   write_effect path (strftime_HMS000 ie.2.1 +:+ " --> "
                      +:+ strftime_HMS000 (add_seconds ie.2.1 2) +:+ LF);
   write_effect path (ie.2.2 +:+ LF +:+ LF)].

Definition srt_effects (path : string) (es : list Entry) : list effect :=
  [id; open_effect path]
  ++ concat (map (srt_writes path) (enumerate es 1))
  ++ [id].

Definition apply_effects (effs : list effect) (fl : gmap string string)
    : gmap string string :=
  foldl (λ f e, e f) fl effs.

Definition mk_session (p : TextProcessor) (fl : gmap string string)
    (sched : list bool) : session :=
  {| self := p; fs := {| files := fl; faults := sched |} |}.

(** The number of I/O calls of an export. *)
Definition io_calls_txt (p : TextProcessor) : nat := length (entries p) + 3.
Definition io_calls_srt (p : TextProcessor) : nat := 3 * length (entries p) + 3.


Definition io_calls (format : string) (p : TextProcessor) : nat :=
  if bool_decide (lower format = "srt") then io_calls_srt p else io_calls_txt p.

Definition fault_met (n : nat) (s : session) : Prop :=
  true ∈ take n (faults (fs s)).

Definition srt_pieces (ie : nat * Entry) : list string :=
  [str_of_nat ie.1 +:+ LF;
   strftime_HMS000 ie.2.1 +:+ " --> "
     +:+ strftime_HMS000 (add_seconds ie.2.1 2) +:+ LF;
   ie.2.2 +:+ LF +:+ LF].

(** ** Auxiliary notions for the proofs about the accumulator *)

(** [s] does not begin with whitespace. *)
Definition starts_clean (s : string) : bool :=
  match s with
  | EmptyString => true
  | String c _ => negb (isspace c)
  end.

(** The text of the last entry, [""] when there is none. *)
Definition last_text_of (es : list Entry) : string :=
  match last es with
  | Some e => e.2
  | None => ""
  end.

(** No entry is similar to the one before it: the similarity of the
    earlier text to the later one, the way [_is_duplicate] compares, is
    below the threshold. *)
Definition no_adjacent_duplicates (p : TextProcessor) : Prop :=
  ∀ e1 e2, adjacent e1 e2 (entries p) →
    (get_similarity e1.2 e2.2 < similarity_threshold p)%Q.

(** What every operation keeps: [_last_text] is the text of the last
    entry, no entry is empty, no two neighbours are duplicates. *)
Definition accumulator_inv (p : TextProcessor) : Prop :=
  _last_text p = last_text_of (entries p)
  ∧ Forall (λ e : Entry, e.2 ≠ "") (entries p)
  ∧ no_adjacent_duplicates p.

(** ** Auxiliary notions for the proofs about the export and the clock *)

(** The strings an export writes, one per [f.write] call, in order. *)
Definition export_pieces (format : string) (p : TextProcessor) : list string :=
  if bool_decide (lower format = "srt")
  then concat (map srt_pieces (enumerate (entries p) 1))
  else map (λ e, txt_line e +:+ LF) (entries p).

(** The seconds since midnight of a [datetime]. *)
Definition seconds_of_day (dt : datetime) : Z :=
  (hour dt * 3600 + minute dt * 60 + second dt)%Z.

(** ** Auxiliary notions for the proofs about matches *)

Local Close Scope string_scope.

(** What a match [(i, j, k)] stands for: [a[i:i+k] == b[j:j+k]], both
    slices in range. *)
Definition valid_match {A} (a b : list A) (m : Match) : Prop :=
  ∀ t, t < m.2 → ∃ x, a !! (m.1.1 + t) = Some x ∧ b !! (m.1.2 + t) = Some x.

(** After row [i] of the scan: a length [v] in [j2len] at column [j] stands
    for [v] equal elements that end at [a[i]] and [b[j]]. *)
Definition row_valid {A} (a b : list A) (i : nat) (j2len : gmap nat nat)
    : Prop :=
  ∀ j v, j2len !! j = Some v →
    1 ≤ v ∧ v ≤ S i ∧ v ≤ S j
    ∧ ∀ t, t < v → ∃ x, a !! (i - t) = Some x ∧ b !! (j - t) = Some x.

Local Open Scope string_scope.

(** ** Sample values *)

(** A clock reading, for the examples. *)
Definition noon : datetime :=
  {| ordinal := 739000; hour := 12; minute := 0; second := 0;
     microsecond := 0 |}.

(** An accumulator that has accepted one text. *)
Definition hello : TextProcessor :=
  {| similarity_threshold := default_threshold;
     entries := [(noon, "Hello, world!")];
     _last_text := "Hello, world!" |}.



(** The run of the module's self-test, with a failed export in between. *)
Definition three_texts : TextProcessor :=
  foldl apply_op (init default_threshold)
    [OpAdd noon "Hello, world!"; OpAdd noon "Hello, World!";
     OpAdd noon "This is different."; OpExport "out.srt" "srt" {| files := ∅; faults := [true] |};
     OpAdd noon "This is different!"; OpAdd noon "Completely new text."].

(** Two texts accepted one after the other under the default threshold. *)
Definition two_similar : TextProcessor :=
  foldl apply_op (init default_threshold)
    [OpAdd noon "bbabb"; OpAdd noon "bacbb"].

(** A grabber that answers every region with the same picture. *)
Definition grab_unit (r : Region) : exn + unit := inr tt.

(** An OCR engine that reads the same text in every picture. *)
Definition read_hello (image : unit) : exn + string := inr "Hello, world!".

(** A window at start-up: no region selected yet. *)
Definition fresh_window : MainWindow unit :=
  {| mw_capture := {| _region := None |};
     processor := init default_threshold;
     result_text := [];
     stats_label := "0 subtitles captured";
     log := [] |}.

(** An accumulator whose threshold no similarity reaches. *)
Definition hello_strict : TextProcessor :=
  {| similarity_threshold := 2;
     entries := [(noon, "Hello, world!")];
     _last_text := "Hello, world!" |}.

(** An accumulator with threshold 0 that was offered two texts. *)
Definition zero_threshold_run : TextProcessor :=
  foldl apply_op (init 0)
    [OpAdd noon "Hello, world!"; OpAdd noon "Completely new text."].

(** The last second of a day. *)
Definition last_second : datetime :=
  {| ordinal := 739000; hour := 23; minute := 59; second := 59;
     microsecond := 0 |}.

(** A picture of two rows. *)
Definition sample_bitmap : Bitmap :=
  [[(255, 255, 255); (10, 250, 3)]; [(239, 239, 239); (0, 0, 0)]]%Z.

(** The binding's [bool] of a point, and a gesture for the examples:
    enlarge by the corner, then drag, then confirm. *)
Definition not_null (p : Point) : bool :=
  negb (bool_decide (p = (0, 0)%Z)).

Definition sample_gesture : list frame_event :=
  [MousePress true (395, 95)%Z (495, 195)%Z; MouseMove (0, 0)%Z (620, 30)%Z;
   MouseRelease;
   MousePress true (20, 20)%Z (120, 120)%Z; MouseMove (0, 0)%Z (70, 640)%Z;
   MouseRelease;
   KeyPress Key_Return].

(** A grabber, an engine and a session for the examples. *)
Definition grab_sample (r : Region) : exn + Bitmap := inr sample_bitmap.

Definition read_sample (prepared : Bitmap) (lang config : string)
    : tesseract_answer := Read " Hello ".

Definition sample_events : list event :=
  (ClickSelect :: (OnFrame <$> sample_gesture)
   ++ [ClickStart; TimerTick noon])%list.

Definition sample_app : App :=
  foldl (λ app e,
           handle not_null grab_sample Bitmap id id read_sample e app)
        (new_app true {| files := ∅; faults := [] |}) sample_events.

(** A grabber that is refused the screen. *)
Definition grab_refused (r : Region) : exn + Bitmap := inl ScreenShotError.

(** * Properties *)

(** ** Strings *)

Lemma is_empty_true s : is_empty s = true ↔ s = "".
Proof. unfold is_empty. apply bool_decide_eq_true. Qed.

Lemma is_empty_false s : is_empty s = false ↔ s ≠ "".
Proof. unfold is_empty. apply bool_decide_eq_false. Qed.

Lemma lstrip_all_space s : all_space s = true → lstrip s = "".
Proof.
  induction s as [|c s IH]; simpl; [done|].
  intros [Hc Hs]%andb_true_iff. rewrite Hc. auto.
Qed.

Lemma strip_all_space s : all_space s = true → strip s = "".
Proof. intros H. unfold strip. by rewrite lstrip_all_space. Qed.

Lemma rstrip_empty_all_space s : rstrip s = "" → all_space s = true.
Proof.
  induction s as [|c s IH]; simpl; [done|].
  destruct (rstrip s) eqn:E; [|done].
  destruct (isspace c); [|done]. auto.
Qed.

Lemma lstrip_all_space_inv s : all_space (lstrip s) = true → all_space s = true.
Proof.
  induction s as [|c s IH]; simpl; [done|].
  destruct (isspace c) eqn:E; simpl; [auto|].
  rewrite E. done.
Qed.

Lemma strip_empty_iff s : strip s = "" ↔ all_space s = true.
Proof.
  split; [|apply strip_all_space].
  intros H. apply lstrip_all_space_inv, rstrip_empty_all_space, H.
Qed.

Lemma add_text_unfold now text self :
  add_text now text self =
  if is_empty (strip text) then (false, self)
  else if _is_duplicate self (strip text) then (false, self)
  else (true, {| similarity_threshold := similarity_threshold self;
                 entries := entries self ++ [(now, strip text)];
                 _last_text := strip text |}).
Proof. reflexivity. Qed.

Lemma is_duplicate_true self text :
  _is_duplicate self text = true ↔
  _last_text self ≠ "" ∧
  (similarity_threshold self <= get_similarity (_last_text self) text)%Q.
Proof.
  unfold _is_duplicate, get_similarity.
  destruct (is_empty (_last_text self)) eqn:E.
  - apply is_empty_true in E. split; [done|]. intros [? _]; done.
  - apply is_empty_false in E. rewrite Qle_bool_iff. tauto.
Qed.

Lemma is_duplicate_false self text :
  _is_duplicate self text = false ↔
  _last_text self = "" ∨
  (get_similarity (_last_text self) text < similarity_threshold self)%Q.
Proof.
  rewrite <- not_true_iff_false, is_duplicate_true.
  destruct (decide (_last_text self = "")) as [->|Hne].
  - split; [auto|]. intros _ [? _]. done.
  - split.
    + intros H. right. apply Qnot_le_lt. tauto.
    + intros [?|Hlt] [_ Hle]; [done|]. by apply Qlt_not_le in Hlt.
Qed.





Lemma lstrip_starts_clean s : starts_clean (lstrip s) = true.
Proof.
  induction s as [|c s IH]; [done|].
  simpl. destruct (isspace c) eqn:E; [done|]. simpl. by rewrite E.
Qed.

Lemma rstrip_starts_clean s : starts_clean s = true → starts_clean (rstrip s) = true.
Proof.
  destruct s as [|c s]; [done|]. simpl. intros Hc.
  destruct (rstrip s); simpl; [|done].
  apply negb_true_iff in Hc. rewrite Hc. simpl. by rewrite Hc.
Qed.

Lemma lstrip_clean s : starts_clean s = true → lstrip s = s.
Proof.
  destruct s as [|c s]; [done|]. simpl. intros Hc.
  apply negb_true_iff in Hc. by rewrite Hc.
Qed.

Lemma rstrip_idem s : rstrip (rstrip s) = rstrip s.
Proof.
  induction s as [|c s IH]; [done|].
  simpl. destruct (rstrip s) as [|d r] eqn:E.
  - destruct (isspace c) eqn:Hc; [done|]. simpl. by rewrite Hc.
  - change (rstrip (String c (String d r)))
      with (match rstrip (String d r) with
            | "" => if isspace c then "" else String c ""
            | r0 => String c r0
            end).
    by rewrite IH.
Qed.

Lemma strip_idem s : strip (strip s) = strip s.
Proof.
  unfold strip at 1.
  rewrite (lstrip_clean (strip s)).
  - unfold strip. apply rstrip_idem.
  - apply rstrip_starts_clean, lstrip_starts_clean.
Qed.

Lemma append_cons c s t : String c s +:+ t = String c (s +:+ t).
Proof. reflexivity. Qed.

Lemma append_nil_l t : "" +:+ t = t.
Proof. reflexivity. Qed.

Lemma append_nil_r s : s +:+ "" = s.
Proof. induction s as [|c s IH]; [done|]. by rewrite append_cons, IH. Qed.

Lemma append_assoc s t u : (s +:+ t) +:+ u = s +:+ (t +:+ u).
Proof. induction s as [|c s IH]; [done|]. by rewrite !append_cons, IH. Qed.

(** ** The matcher: a match lies inside its window *)

Local Close Scope string_scope.

Section Bounds.
Context {A : Type} `{EqDecision A}.
Variables (a b : list A) (alo ahi blo bhi : nat).
Local Abbreviation row_ok := (row_ok blo bhi).
Local Abbreviation best_ok := (best_ok alo blo bhi).

Lemma j2len_get_bound n j2len j :
  row_ok n j2len → blo ≤ j →
  j2len_get j2len j ≤ n ∧ blo + j2len_get j2len j ≤ j.
Proof.
  intros Hrow Hj. destruct j as [|j]; simpl; [lia|].
  destruct (j2len !! j) as [v|] eqn:E; simpl; [|lia].
  apply Hrow in E. lia.
Qed.

Lemma scan_row_bounds n j2len js newj2len best :
  row_ok n j2len → row_ok (S n) newj2len → best_ok (S n) best →
  let r := scan_row blo bhi j2len (alo + n) js newj2len best in
  row_ok (S n) r.1 ∧ best_ok (S n) r.2.
Proof.
  intros Hold. revert newj2len best.
  induction js as [|j js IH]; intros newj2len best Hnew Hbest; simpl; [done|].
  case_bool_decide as Hlo; [by apply IH|].
  case_bool_decide as Hhi; [done|].
  destruct (j2len_get_bound n j2len j Hold ltac:(lia)) as [Hk1 Hk2].
  assert (Hnew' : row_ok (S n) (<[j:=j2len_get j2len j + 1]> newj2len)).
  { intros j' v. rewrite lookup_insert_Some. intros [[<- <-]|[_ Hv]]; [lia|].
    by apply Hnew. }
  case_bool_decide; apply IH; try done.
  unfold best_ok. simpl. lia.
Qed.

Lemma best_ok_mono n best : best_ok n best → best_ok (S n) best.
Proof. unfold best_ok. lia. Qed.

Lemma scan_step_bounds n st :
  row_ok n st.1 → best_ok n st.2 →
  let r := scan_step a b blo bhi st (alo + n) in
  row_ok (S n) r.1 ∧ best_ok (S n) r.2.
Proof.
  intros Hrow Hbest. unfold scan_step.
  destruct (a !! (alo + n)) as [elt|].
  - apply scan_row_bounds; [done| |by apply best_ok_mono].
    intros j v. by rewrite lookup_empty.
  - simpl. split; [|by apply best_ok_mono].
    intros j v. by rewrite lookup_empty.
Qed.

Lemma scan_prefix_bounds n :
  blo ≤ bhi →
  let r := foldl (scan_step a b blo bhi) (∅, (alo, blo, 0)) (seq alo n) in
  row_ok n r.1 ∧ best_ok n r.2.
Proof.
  intros Hb. induction n as [|n IH].
  - simpl. split; [intros j v; by rewrite lookup_empty|].
    unfold best_ok. simpl. lia.
  - rewrite seq_S, foldl_app. simpl foldl. destruct IH as [IH1 IH2].
    by apply scan_step_bounds.
Qed.

Lemma scan_bounds :
  alo ≤ ahi → blo ≤ bhi →
  let best := (scan a b alo ahi blo bhi).2 in
  alo ≤ best.1.1 ∧ best.1.1 + best.2 ≤ ahi
  ∧ blo ≤ best.1.2 ∧ best.1.2 + best.2 ≤ bhi.
Proof.
  intros Ha Hb. destruct (scan_prefix_bounds (ahi - alo) Hb) as [_ H1].
  unfold best_ok in H1. unfold scan. simpl. lia.
Qed.

Lemma extend_left_bounds besti bestj bestsize :
  alo ≤ besti → blo ≤ bestj →
  let r := extend_left a b alo blo besti bestj bestsize in
  alo ≤ r.1.1 ∧ blo ≤ r.1.2
  ∧ r.1.1 + r.2 = besti + bestsize ∧ r.1.2 + r.2 = bestj + bestsize.
Proof.
  revert bestj bestsize.
  induction besti as [|i IH]; intros bestj bestsize Hi Hj; simpl; [lia|].
  destruct bestj as [|j]; simpl; [lia|].
  destruct (bool_decide (alo < S i) && bool_decide (blo < S j) && same_at a b i j) eqn:E;
    simpl; [|lia].
  apply andb_true_iff in E as [E _]. apply andb_true_iff in E as [E1 E2].
  apply bool_decide_eq_true in E1, E2.
  destruct (IH j (S bestsize)) as (?&?&?&?); [lia..|]. lia.
Qed.

Lemma extend_right_bounds fuel besti bestj bestsize :
  besti + bestsize ≤ ahi → bestj + bestsize ≤ bhi →
  let r := extend_right a b ahi bhi fuel besti bestj bestsize in
  r.1.1 = besti ∧ r.1.2 = bestj ∧ bestsize ≤ r.2
  ∧ r.1.1 + r.2 ≤ ahi ∧ r.1.2 + r.2 ≤ bhi.
Proof.
  revert bestsize.
  induction fuel as [|fuel IH]; intros bestsize Hi Hj; simpl; [lia|].
  destruct (bool_decide (besti + bestsize < ahi)
            && bool_decide (bestj + bestsize < bhi)
            && same_at a b (besti + bestsize) (bestj + bestsize)) eqn:E;
    simpl; [|lia].
  apply andb_true_iff in E as [E _]. apply andb_true_iff in E as [E1 E2].
  apply bool_decide_eq_true in E1, E2.
  destruct (IH (S bestsize)) as (?&?&?&?&?); [lia..|]. lia.
Qed.

(** [find_longest_match] answers with a match inside its window. *)
Lemma find_longest_match_bounds :
  alo ≤ ahi → blo ≤ bhi →
  let m := find_longest_match a b alo ahi blo bhi in
  alo ≤ m.1.1 ∧ m.1.1 + m.2 ≤ ahi ∧ blo ≤ m.1.2 ∧ m.1.2 + m.2 ≤ bhi.
Proof.
  intros Ha Hb. unfold find_longest_match.
  pose proof (scan_bounds Ha Hb) as Hs. simpl in Hs.
  destruct (scan a b alo ahi blo bhi).2 as [[bi bj] bs]. simpl in Hs.
  pose proof (extend_left_bounds bi bj bs ltac:(lia) ltac:(lia)) as Hl.
  simpl in Hl.
  destruct (extend_left a b alo blo bi bj bs) as [[li lj] ls]. simpl in Hl.
  pose proof (extend_right_bounds (ahi - (li + ls)) li lj ls ltac:(lia) ltac:(lia)) as Hr.
  simpl in Hr. lia.
Qed.
End Bounds.

(** ** The matcher: the loop over the windows *)

Section Blocks.
Context {A : Type} `{EqDecision A}.
Variables a b : list A.

Lemma total_app ms1 ms2 : total (ms1 ++ ms2) = total ms1 + total ms2.
Proof. induction ms1 as [|m ms1 IH]; simpl; [done|]. rewrite IH. lia. Qed.

(** One round of the loop: the queue that replaces a window [w] whose
    longest match is [(i, j, k)] with [k > 0]. *)
Lemma blocks_loop_step fuel alo ahi blo bhi queue ms :
  blocks_loop a b (S fuel) ((alo, ahi, blo, bhi) :: queue) ms
  = let '(i, j, k) := find_longest_match a b alo ahi blo bhi in
    if bool_decide (k = 0) then blocks_loop a b fuel queue ms
    else
      let q1 :=
        if bool_decide (alo < i) && bool_decide (blo < j)
        then (alo, i, blo, j) :: queue else queue in
      let q2 :=
        if bool_decide (i + k < ahi) && bool_decide (j + k < bhi)
        then (i + k, ahi, j + k, bhi) :: q1 else q1 in
      blocks_loop a b fuel q2 (ms ++ [(i, j, k)]).
Proof.
  cbn [blocks_loop].
  by destruct (find_longest_match a b alo ahi blo bhi) as [[i j] k].
Qed.

(** The loop ends within [queue_weight queue + 1] rounds, and what it
    adds to the matches fits in the rows and in the columns of the
    queue. *)
Lemma queue_weight_cons w queue :
  queue_weight (w :: queue) = weight w + queue_weight queue.
Proof. reflexivity. Qed.

Lemma rows_cons w queue : rows (w :: queue) = (w.1.1.2 - w.1.1.1) + rows queue.
Proof. reflexivity. Qed.

Lemma columns_cons w queue : columns (w :: queue) = (w.2 - w.1.2) + columns queue.
Proof. reflexivity. Qed.

Lemma blocks_loop_total fuel queue ms :
  Forall window_ok queue → queue_weight queue < fuel →
  ∃ res, blocks_loop a b fuel queue ms = Some res
         ∧ total res ≤ total ms + rows queue
         ∧ total res ≤ total ms + columns queue.
Proof.
  revert queue ms. induction fuel as [|fuel IH]; intros queue ms Hq Hfuel; [lia|].
  destruct queue as [|[[[alo ahi] blo] bhi] queue].
  { exists ms. split; [done|]. change (rows []) with 0. change (columns []) with 0. lia. }
  rewrite blocks_loop_step.
  apply Forall_cons in Hq as [[Ha Hb] Hq]. simpl in Ha, Hb.
  pose proof (find_longest_match_bounds a b alo ahi blo bhi Ha Hb) as Hm.
  destruct (find_longest_match a b alo ahi blo bhi) as [[i j] k].
  simpl in Hm. rewrite queue_weight_cons in Hfuel. rewrite rows_cons, columns_cons.
  unfold weight in Hfuel. simpl in Hfuel. simpl fst. simpl snd.
  case_bool_decide as Hk.
  { destruct (IH queue ms Hq ltac:(lia)) as (res & -> & H1 & H2).
    exists res. split; [done|lia]. }
  cbv zeta.
  set (q1 := if bool_decide (alo < i) && bool_decide (blo < j)
             then (alo, i, blo, j) :: queue else queue).
  set (q2 := if bool_decide (i + k < ahi) && bool_decide (j + k < bhi)
             then (i + k, ahi, j + k, bhi) :: q1 else q1).
  assert (H1 : Forall window_ok q1
               ∧ queue_weight q1 ≤ queue_weight queue + 2 * (i - alo) + 1
               ∧ rows q1 ≤ rows queue + (i - alo)
               ∧ columns q1 ≤ columns queue + (j - blo)).
  { subst q1. destruct (bool_decide (alo < i) && bool_decide (blo < j)).
    - split; [apply Forall_cons; split; [split; simpl; lia|done]|].
      rewrite queue_weight_cons, rows_cons, columns_cons. unfold weight. simpl. lia.
    - split; [done|lia]. }
  destruct H1 as (Hq1 & Hw1 & Hr1 & Hc1).
  assert (H2 : Forall window_ok q2
               ∧ queue_weight q2 ≤ queue_weight q1 + 2 * (ahi - (i + k)) + 1
               ∧ rows q2 ≤ rows q1 + (ahi - (i + k))
               ∧ columns q2 ≤ columns q1 + (bhi - (j + k))).
  { subst q2. destruct (bool_decide (i + k < ahi) && bool_decide (j + k < bhi)).
    - split; [apply Forall_cons; split; [split; simpl; lia|done]|].
      rewrite queue_weight_cons, rows_cons, columns_cons. unfold weight. simpl. lia.
    - split; [done|lia]. }
  destruct H2 as (Hq2 & Hw2 & Hr2 & Hc2).
  destruct (IH q2 (ms ++ [(i, j, k)]) Hq2 ltac:(lia)) as (res & -> & H1 & H2).
  exists res. split; [done|]. rewrite total_app in H1, H2.
  change (total [(i, j, k)]) with (k + 0) in *. lia.
Qed.

Lemma total_Permutation ms1 ms2 : ms1 ≡ₚ ms2 → total ms1 = total ms2.
Proof.
  induction 1 as [|m ms1 ms2 _ IH|m1 m2 ms|ms1 ms2 ms3 _ IH1 _ IH2];
    unfold total in *; simpl; lia.
Qed.

Lemma total_merge_adjacent current ms :
  total (merge_adjacent current ms) = size current + total ms.
Proof.
  revert current. induction ms as [|[[i2 j2] k2] ms IH];
    intros [[i1 j1] k1]; cbn [merge_adjacent].
  - case_bool_decide; subst; reflexivity.
  - destruct (bool_decide (i1 + k1 = i2) && bool_decide (j1 + k1 = j2)).
    + rewrite IH. unfold total, size. simpl. lia.
    + rewrite total_app, IH.
      case_bool_decide; subst; unfold total, size; simpl; lia.
Qed.

(** Sorting, merging and the dummy block leave the sum of the sizes as it
    is. *)
Lemma matches_total : matches a b = total (found_blocks a b).
Proof.
  unfold matches, get_matching_blocks.
  change (foldr (λ m n, size m + n) 0 ?l) with (total l).
  rewrite total_app, total_merge_adjacent.
  rewrite (total_Permutation _ _ (merge_sort_Permutation _ _)).
  unfold total at 2, size. simpl. lia.
Qed.

(** [get_matching_blocks] has fuel enough, and the matches it finds fit in
    each of the two sequences. *)
Lemma found_blocks_total :
  blocks_loop a b (2 * length a + 2) [(0, length a, 0, length b)] []
  = Some (found_blocks a b)
  ∧ matches a b ≤ length a ∧ matches a b ≤ length b.
Proof.
  destruct (blocks_loop_total (2 * length a + 2) [(0, length a, 0, length b)] [])
    as (res & Hres & H1 & H2).
  - apply Forall_cons. split; [split; simpl; lia|done].
  - rewrite queue_weight_cons. unfold weight. simpl. lia.
  - rewrite rows_cons in H1. rewrite columns_cons in H2.
    change (total []) with 0 in *. change (rows []) with 0 in *.
    change (columns []) with 0 in *. simpl in H1, H2.
    rewrite matches_total. unfold found_blocks. rewrite Hres. simpl.
    split; [done|lia].
Qed.
End Blocks.

(** ** The matcher: a sequence against itself *)

Section DiagonalFacts.
Context {A : Type} `{EqDecision A}.
Variable x : list A.
Local Abbreviation keyed := (keyed x).
Local Abbreviation diag := (diag x).
Local Abbreviation prev_diag := (prev_diag x).
Local Abbreviation diag_inv := (diag_inv x).

Lemma diag_keyed i : keyed i = true → diag i = S (prev_diag i).
Proof. intros H0. destruct i; simpl; by rewrite H0. Qed.

Lemma diag_not_keyed i : keyed i = false → diag i = 0.
Proof. intros H0. destruct i; simpl; by rewrite H0. Qed.

Lemma diag_le i : diag i ≤ S i.
Proof.
  induction i as [|i IH]; simpl.
  - destruct (keyed 0); lia.
  - destruct (keyed (S i)); lia.
Qed.

Lemma elem_of_indices_from (elt : A) (l : list A) j0 j :
  j ∈ indices_from elt l j0 ↔ j0 ≤ j ∧ l !! (j - j0) = Some elt.
Proof.
  revert j0. induction l as [|y l IH]; intros j0; simpl.
  - rewrite elem_of_nil. split; [done|]. by intros [_ ?].
  - destruct (decide (elt = y)) as [<-|Hne].
    + rewrite elem_of_cons, IH. split.
      * intros [->|[Hj Hl]].
        -- split; [lia|]. by rewrite Nat.sub_diag.
        -- split; [lia|]. replace (j - j0) with (S (j - S j0)) by lia. done.
      * intros [Hj Hl]. destruct (decide (j = j0)) as [|Hjj]; [by left|right].
        split; [lia|]. replace (j - j0) with (S (j - S j0)) in Hl by lia. done.
    + rewrite IH. split.
      * intros [Hj Hl]. split; [lia|].
        replace (j - j0) with (S (j - S j0)) by lia. done.
      * intros [Hj Hl]. destruct (decide (j = j0)) as [->|Hjj].
        -- rewrite Nat.sub_diag in Hl. simpl in Hl. congruence.
        -- split; [lia|]. replace (j - j0) with (S (j - S j0)) in Hl by lia. done.
Qed.

Lemma indices_from_sorted (elt : A) (l : list A) j0 : StronglySorted lt (indices_from elt l j0).
Proof.
  revert j0. induction l as [|y l IH]; intros j0; simpl; [constructor|].
  destruct (decide (elt = y)); [|apply IH].
  constructor; [apply IH|].
  apply Forall_forall. intros j [Hj _]%elem_of_indices_from. lia.
Qed.

(** One row of the scan of [x] against itself, at a keyed [i]. *)
Lemma scan_row_diag n i elt j2len js newj2len best :
  x !! i = Some elt → keyed i = true → n = length x →
  (∀ j v, j2len !! j = Some v → v ≤ diag j ∧ v ≤ prev_diag i) →
  j2len_get j2len i = prev_diag i →
  StronglySorted lt js →
  (∀ j, j ∈ js → x !! j = Some elt) →
  (∀ j v, newj2len !! j = Some v → v ≤ diag j ∧ v ≤ diag i) →
  ((i ∈ js ∧ newj2len !! i = None)
   ∨ ((i ∉ js) ∧ newj2len !! i = Some (diag i) ∧ diag i ≤ best.2)) →
  best.1.1 = best.1.2 → best.1.1 + best.2 ≤ S i →
  (∀ i', i' < i → diag i' ≤ best.2) →
  diag_inv (S i) (scan_row 0 n j2len i js newj2len best).
Proof.
  intros Hi Hkey -> Hold Hdiag. revert newj2len best.
  induction js as [|j js IH]; intros newj2len best Hsort Hjs Hnew Hdone Hd Hlen Hbs.
  - simpl. destruct Hdone as [[Hin _]|(_ & Hii & Hbi)]; [by apply elem_of_nil in Hin|].
    split; [done|]. split; [simpl; by rewrite Hii|]. split; [done|]. split; [done|].
    intros i' Hi'. destruct (decide (i' = i)) as [->|]; [done|]. apply Hbs. lia.
  - apply StronglySorted_inv in Hsort as [Hsort Hall].
    assert (Hxj : x !! j = Some elt) by (apply Hjs; left).
    assert (Hjn : j < length x) by (by eapply lookup_lt_Some).
    assert (Hkj : keyed j = true).
    { unfold keyed in *. by rewrite Hxj, Hi in *. }
    cbn [scan_row].
    rewrite bool_decide_eq_false_2 by lia.
    rewrite bool_decide_eq_false_2 by lia.
    set (k := j2len_get j2len j + 1).
    assert (Hk : k ≤ diag j ∧ k ≤ diag i).
    { rewrite (diag_keyed j Hkj), (diag_keyed i Hkey). subst k.
      destruct j as [|j']; simpl.
      - lia.
      - destruct (j2len !! j') as [v|] eqn:E; simpl; [|lia].
        apply Hold in E. simpl in E. lia. }
    assert (Hnew' : ∀ j0 v, <[j:=k]> newj2len !! j0 = Some v → v ≤ diag j0 ∧ v ≤ diag i).
    { intros j0 v. rewrite lookup_insert_Some. intros [[<- <-]|[_ Hv]]; [done|by apply Hnew]. }
    assert (Hjs' : ∀ j0, j0 ∈ js → x !! j0 = Some elt).
    { intros j0 Hj0. apply Hjs. by right. }
    destruct (decide (j = i)) as [->|Hji].
    + (* the diagonal *)
      assert (Hki : k = diag i).
      { subst k. rewrite Hdiag, (diag_keyed i Hkey). lia. }
      assert (Hnotin : i ∉ js).
      { intros Hin. rewrite Forall_forall in Hall. apply Hall in Hin. lia. }
      pose proof (diag_le i) as Hdle.
      case_bool_decide as Hupd.
      * apply IH; try done.
        -- right. split; [done|]. rewrite lookup_insert_eq, Hki. simpl. split; [done|lia].
        -- simpl. lia.
        -- simpl. intros i' Hi'. specialize (Hbs i' Hi'). lia.
      * apply IH; try done.
        right. split; [done|]. rewrite lookup_insert_eq, Hki. split; [done|lia].
    + (* off the diagonal: no update *)
      assert (Hno : ¬ best.2 < k).
      { destruct (decide (j < i)) as [Hlt|Hge].
        - specialize (Hbs j Hlt). lia.
        - destruct Hdone as [[Hin _]|(_ & _ & Hbi)]; [|lia].
          apply elem_of_cons in Hin as [->|Hin]; [done|].
          rewrite Forall_forall in Hall. apply Hall in Hin. lia. }
      rewrite bool_decide_eq_false_2 by done.
      apply IH; try done.
      destruct Hdone as [[Hin Hnone]|(Hnin & Hsome & Hbi)].
      * left. split.
        -- apply elem_of_cons in Hin as [->|Hin]; done.
        -- by rewrite lookup_insert_ne.
      * right. split; [|split; [|done]].
        -- intros Hin. apply Hnin. by right.
        -- by rewrite lookup_insert_ne.
Qed.

Lemma scan_step_diag i st :
  i < length x → diag_inv i st →
  diag_inv (S i) (scan_step x x 0 (length x) st i).
Proof.
  intros Hi (H1 & H2 & H3 & H4 & H5). unfold scan_step.
  destruct (lookup_lt_is_Some_2 x i Hi) as [elt Helt]. rewrite Helt.
  destruct (keyed i) eqn:Hkey.
  - assert (Hpop : popular x elt = false).
    { unfold keyed in Hkey. rewrite Helt in Hkey. by apply negb_true_iff. }
    unfold b2j_get. rewrite Hpop.
    apply (scan_row_diag (length x) i elt); try done.
    + apply indices_from_sorted.
    + intros j [_ Hj]%elem_of_indices_from. by rewrite Nat.sub_0_r in Hj.
    + left. split; [|apply lookup_empty].
      apply elem_of_indices_from. split; [lia|]. by rewrite Nat.sub_0_r.
    + lia.
  - assert (Hpop : popular x elt = true).
    { unfold keyed in Hkey. rewrite Helt in Hkey. by apply negb_false_iff. }
    unfold b2j_get. rewrite Hpop. cbn [scan_row]. unfold diag_inv. cbn [fst snd].
    pose proof (diag_not_keyed i Hkey) as Hd0.
    split; [intros j v; by rewrite lookup_empty|].
    split.
    { change (default 0 ((∅ : gmap nat nat) !! i) = diag i).
      by rewrite lookup_empty, Hd0. }
    split; [done|]. split; [simpl; lia|].
    simpl. intros i' Hi'. destruct (decide (i' = i)) as [->|]; [lia|].
    apply H5. lia.
Qed.

Lemma scan_prefix_diag n :
  n ≤ length x →
  diag_inv n (foldl (scan_step x x 0 (length x)) (∅, (0, 0, 0)) (seq 0 n)).
Proof.
  induction n as [|n IH]; intros Hn.
  - unfold diag_inv. cbn [foldl seq fst snd].
    split; [intros j v; by rewrite lookup_empty|].
    repeat split; simpl; try done. intros i'. lia.
  - rewrite seq_S, foldl_app. simpl foldl.
    apply scan_step_diag; [lia|]. apply IH. lia.
Qed.

(** The scan of [x] against itself ends with a match on the diagonal. *)
Lemma scan_diag :
  let best := (scan x x 0 (length x) 0 (length x)).2 in
  best.1.1 = best.1.2 ∧ best.1.1 + best.2 ≤ length x.
Proof.
  unfold scan. rewrite Nat.sub_0_r.
  destruct (scan_prefix_diag (length x) ltac:(done)) as (_ & _ & H3 & H4 & _).
  done.
Qed.

Lemma same_at_diag i : i < length x → same_at x x i i = true.
Proof.
  intros Hi. unfold same_at.
  destruct (lookup_lt_is_Some_2 x i Hi) as [elt ->].
  by apply bool_decide_eq_true.
Qed.

Lemma extend_left_diag p s :
  p ≤ length x → extend_left x x 0 0 p p s = (0, 0, s + p).
Proof.
  revert s. induction p as [|p IH]; intros s Hp; cbn [extend_left].
  - by rewrite Nat.add_0_r.
  - rewrite same_at_diag by lia.
    rewrite !bool_decide_eq_true_2 by lia. cbn [andb].
    rewrite IH by lia. f_equal. lia.
Qed.

Lemma extend_right_diag fuel s :
  s + fuel = length x →
  extend_right x x (length x) (length x) fuel 0 0 s = (0, 0, length x).
Proof.
  revert s. induction fuel as [|fuel IH]; intros s Hs; cbn [extend_right].
  - f_equal. lia.
  - rewrite same_at_diag by (simpl; lia).
    rewrite !bool_decide_eq_true_2 by (simpl; lia). cbn [andb]. apply IH. lia.
Qed.

(** The longest match of [x] with itself is all of [x]. *)
Lemma find_longest_match_self :
  find_longest_match x x 0 (length x) 0 (length x) = (0, 0, length x).
Proof.
  unfold find_longest_match. pose proof scan_diag as Hs. simpl in Hs.
  destruct (scan x x 0 (length x) 0 (length x)).2 as [[p q] s].
  simpl in Hs. destruct Hs as [<- Hps].
  rewrite extend_left_diag by lia. simpl.
  apply extend_right_diag. lia.
Qed.

Lemma matches_self : matches x x = length x.
Proof.
  rewrite matches_total. unfold found_blocks.
  destruct x as [|e l] eqn:Hx; [done|]. rewrite <- Hx.
  replace (2 * length x + 2) with (S (S (2 * length x))) by lia.
  rewrite blocks_loop_step, find_longest_match_self.
  rewrite bool_decide_eq_false_2 by (rewrite Hx; simpl; lia).
  cbv zeta. rewrite !andb_false_intro1 by (apply bool_decide_eq_false; lia).
  simpl. unfold total, size. simpl. lia.
Qed.
End DiagonalFacts.

(** ** The similarity ratio *)

Section Ratio.
Context {A : Type} `{EqDecision A}.

Lemma Zpos_of_nat n : n ≠ 0 → Zpos (Pos.of_nat n) = Z.of_nat n.
Proof. intros Hn. rewrite <- (Nat2Pos.id n Hn) at 2. by rewrite positive_nat_Z. Qed.

Lemma calculate_ratio_bounds m n :
  2 * m ≤ n → (0 <= calculate_ratio m n <= 1)%Q.
Proof.
  intros Hm. unfold calculate_ratio. case_bool_decide as Hn.
  - split; by vm_compute.
  - unfold Qle. simpl Qnum. simpl Qden. rewrite Zpos_of_nat by done. lia.
Qed.

Lemma calculate_ratio_full m : (calculate_ratio m (m + m) == 1)%Q.
Proof.
  unfold calculate_ratio. case_bool_decide as Hn; [done|].
  unfold Qeq. simpl Qnum. simpl Qden. rewrite Zpos_of_nat by done. lia.
Qed.

(** [ratio()] lies in [[0, 1]]. *)
Lemma ratio_bounds (a b : list A) : (0 <= ratio a b <= 1)%Q.
Proof.
  destruct (found_blocks_total a b) as (_ & Ha & Hb).
  apply calculate_ratio_bounds. lia.
Qed.

(** [ratio()] of the empty sequence with a sequence that is not empty
    is 0. *)
Lemma ratio_nil_l (b : list A) : b ≠ [] → (ratio [] b == 0)%Q.
Proof.
  intros Hb. unfold ratio.
  destruct (found_blocks_total [] b) as (_ & Ha & _). simpl in Ha.
  replace (matches [] b) with 0 by lia.
  unfold calculate_ratio. rewrite bool_decide_eq_false_2; [done|].
  destruct b; [done|]. simpl. lia.
Qed.

(** [ratio()] of a sequence with itself is 1. *)
Lemma ratio_self (x : list A) : (ratio x x == 1)%Q.
Proof. unfold ratio. rewrite matches_self. apply calculate_ratio_full. Qed.
End Ratio.


Local Open Scope string_scope.

Lemma get_similarity_bounds a b : (0 <= get_similarity a b <= 1)%Q.
Proof. apply ratio_bounds. Qed.

Lemma get_similarity_same_lower a b :
  lower a = lower b → (get_similarity a b == 1)%Q.
Proof. intros Hab. unfold get_similarity. rewrite Hab. apply ratio_self. Qed.

Lemma lower_empty s : lower s = "" → s = "".
Proof. by destruct s. Qed.

Lemma get_similarity_empty_last t :
  t ≠ "" → (get_similarity "" t == 0)%Q.
Proof.
  intros Ht. unfold get_similarity. apply ratio_nil_l.
  by destruct t.
Qed.

(** ** The export as a run of I/O calls *)

Lemma session_eta s : s = mk_session (self s) (files (fs s)) (faults (fs s)).
Proof. by destruct s as [p [fl sched]]. Qed.

Lemma io_ok eff p fl sched :
  io eff (mk_session p fl (false :: sched)) = (inr tt, mk_session p (eff fl) sched).
Proof. reflexivity. Qed.

Lemma io_ok_nil eff p fl :
  io eff (mk_session p fl []) = (inr tt, mk_session p (eff fl) []).
Proof. reflexivity. Qed.

Lemma io_fault eff p fl sched :
  io eff (mk_session p fl (true :: sched)) = (inl OSError, mk_session p fl sched).
Proof. reflexivity. Qed.

Lemma bind_unfold {S A B} (m : M S A) (f : A → M S B) s :
  (m ≫= f) s = match m s with
               | (inr x, s') => f x s'
               | (inl e, s') => (inl e, s')
               end.
Proof. reflexivity. Qed.

Lemma for_each_cons {S A} (x : A) l (body : A → M S unit) s :
  for_each (x :: l) body s =
  match body x s with
  | (inr _, s') => for_each l body s'
  | (inl e, s') => (inl e, s')
  end.
Proof. reflexivity. Qed.

Lemma for_each_single {S A} (x : A) (body : A → M S unit) s :
  for_each [x] body s = body x s.
Proof. rewrite for_each_cons. by destruct (body x s) as [[e|[]] s']. Qed.

Lemma for_each_app {S A} (l1 l2 : list A) (body : A → M S unit) s :
  for_each (l1 ++ l2) body s =
  match for_each l1 body s with
  | (inr _, s') => for_each l2 body s'
  | (inl e, s') => (inl e, s')
  end.
Proof.
  revert s. induction l1 as [|x l1 IH]; intros s; [done|].
  rewrite <- app_comm_cons, !for_each_cons.
  destruct (body x s) as [[e|[]] s']; [done|]. apply IH.
Qed.

(** A run without a fault applies the effects in order. *)
Lemma run_ok effs p fl sched :
  (∀ b, b ∈ take (length effs) sched → b = false) →
  for_each effs io (mk_session p fl sched)
  = (inr tt, mk_session p (apply_effects effs fl) (drop (length effs) sched)).
Proof.
  revert fl sched. induction effs as [|eff effs IH]; intros fl sched Hok.
  - by rewrite drop_0.
  - rewrite for_each_cons. destruct sched as [|b sched].
    + rewrite io_ok_nil. rewrite (IH (eff fl) []); [|by intros b; rewrite take_nil; inversion 1].
      by rewrite !drop_nil.
    + assert (b = false) as -> by (apply Hok; simpl; left).
      rewrite io_ok. rewrite IH; [done|].
      intros b Hb. apply Hok. simpl. by right.
Qed.

(** A run that meets a fault raises, and leaves the accumulator alone. *)
Lemma run_fault effs p fl sched :
  true ∈ take (length effs) sched →
  (for_each effs io (mk_session p fl sched)).1 = inl OSError.
Proof.
  revert fl sched. induction effs as [|eff effs IH]; intros fl sched Hf.
  - simpl in Hf. by apply elem_of_nil in Hf.
  - rewrite for_each_cons. destruct sched as [|b sched].
    + simpl in Hf. by apply elem_of_nil in Hf.
    + destruct b; [by rewrite io_fault|].
      rewrite io_ok. apply IH. simpl in Hf.
      apply elem_of_cons in Hf as [?|?]; done.
Qed.

Lemma run_keeps_self effs s : self (for_each effs io s).2 = self s.
Proof.
  revert s. induction effs as [|eff effs IH]; intros s; [done|].
  rewrite for_each_cons.
  destruct s as [p [fl [|[] sched]]]; simpl; done.
Qed.

Lemma io_keeps_self eff s : self (io eff s).2 = self s.
Proof. by destruct s as [p [fl [|[] sched]]]. Qed.

Lemma io_then p eff (k : M session unit) effs :
  (∀ s, self s = p → k s = for_each effs io s) →
  ∀ s, self s = p → (io eff;; k) s = for_each (eff :: effs) io s.
Proof.
  intros Hk s Hs. rewrite for_each_cons, bind_unfold.
  pose proof (io_keeps_self eff s) as Hself.
  destruct (io eff s) as [[e|[]] s1]; [done|].
  apply Hk. simpl in Hself. congruence.
Qed.

Lemma for_each_then {A} (l : list A) (body : A → M session unit)
    (g : A → list effect) (k : M session unit) effs :
  (∀ x s, body x s = for_each (g x) io s) →
  (∀ s, k s = for_each effs io s) →
  ∀ s, (for_each l body;; k) s
       = for_each (concat (map g l) ++ effs)%list io s.
Proof.
  intros Hbody Hk s. rewrite bind_unfold, for_each_app.
  assert (Hl : ∀ s', for_each l body s' = for_each (concat (map g l)) io s').
  { clear s. induction l as [|x l IH]; intros s'; [done|].
    simpl concat. rewrite for_each_cons, for_each_app, Hbody.
    destruct (for_each (g x) io s') as [[e|[]] s'']; [done|]. apply IH. }
  rewrite Hl. destruct (for_each (concat (map g l)) io s) as [[e|[]] s']; [done|]. apply Hk.
Qed.

Lemma concat_map_singleton {A B} (f : A → B) (l : list A) :
  concat (map (λ x, [f x]) l) = map f l.
Proof. induction l as [|x l IH]; [done|]. simpl. by rewrite IH. Qed.

Lemma save_to_txt_run path s :
  save_to_txt path s = for_each (txt_effects path (entries (self s))) io s.
Proof.
  unfold save_to_txt, txt_effects, mkdir_parents, open_w.
  apply (io_then (self s)); [|done]. apply io_then.
  intros s1 Hs. rewrite bind_unfold. unfold gets. rewrite Hs.
  rewrite <- (concat_map_singleton (λ e, write_effect path (txt_line e +:+ LF))).
  apply for_each_then; [|intros; symmetry; apply (for_each_single id io)].
  intros [ts text] s'. rewrite for_each_cons.
  unfold write, write_effect, txt_line. simpl. rewrite !append_assoc.
  by destruct (io _ s') as [[e|[]] s''].
Qed.

Lemma save_to_srt_run path s :
  save_to_srt path s = for_each (srt_effects path (entries (self s))) io s.
Proof.
  unfold save_to_srt, srt_effects, mkdir_parents, open_w.
  apply (io_then (self s)); [|done]. apply io_then.
  intros s1 Hs. rewrite bind_unfold. unfold gets. rewrite Hs.
  apply for_each_then; [|intros; symmetry; apply (for_each_single id io)].
  intros [i [ts text]] s'. unfold srt_writes, write.
  cbv beta iota zeta. rewrite for_each_cons, bind_unfold.
  fold (write_effect path (str_of_nat i +:+ LF)).
  destruct (io _ s') as [[e|[]] t1]; [done|].
  rewrite for_each_cons, bind_unfold.
  destruct (io _ t1) as [[e|[]] t2]; [done|].
  by rewrite for_each_single.
Qed.

Lemma save_keeps_self path format s : self (save path format s).2 = self s.
Proof.
  unfold save. case_bool_decide.
  - rewrite save_to_srt_run. apply run_keeps_self.
  - rewrite save_to_txt_run. apply run_keeps_self.
Qed.

Lemma length_txt_effects path es : length (txt_effects path es) = length es + 3.
Proof. unfold txt_effects. simpl. rewrite length_app, length_map. simpl. lia. Qed.

Lemma length_enumerate {A} (l : list A) n : length (enumerate l n) = length l.
Proof. revert n. induction l as [|x l IH]; intros n; simpl; [done|]. by rewrite IH. Qed.


Lemma length_concat_srt_writes path l :
  length (concat (map (srt_writes path) l)) = 3 * length l.
Proof. induction l as [|x l IH]; [done|]. simpl in *. rewrite IH. lia. Qed.

Lemma length_srt_effects path es : length (srt_effects path es) = 3 * length es + 3.
Proof.
  unfold srt_effects. simpl. rewrite length_app, length_concat_srt_writes, length_enumerate.
  simpl. lia.
Qed.

(** ** What the export writes *)

Lemma concat_strings_app l1 l2 :
  concat_strings (l1 ++ l2) = concat_strings l1 +:+ concat_strings l2.
Proof.
  induction l1 as [|s l1 IH]; [done|].
  simpl. unfold concat_strings in *. simpl. by rewrite IH, append_assoc.
Qed.

Lemma apply_effects_app effs1 effs2 fl :
  apply_effects (effs1 ++ effs2) fl = apply_effects effs2 (apply_effects effs1 fl).
Proof. apply foldl_app. Qed.

Lemma apply_writes path ds fl c :
  fl !! path = Some c →
  apply_effects (map (write_effect path) ds) fl !! path
  = Some (c +:+ concat_strings ds).
Proof.
  revert fl c. induction ds as [|d ds IH]; intros fl c Hc.
  - simpl. by rewrite append_nil_r.
  - simpl. erewrite IH.
    + unfold concat_strings. simpl. by rewrite append_assoc.
    + unfold write_effect. by rewrite lookup_insert_eq, Hc.
Qed.

Lemma apply_writes_other path q ds fl :
  q ≠ path →
  apply_effects (map (write_effect path) ds) fl !! q = fl !! q.
Proof.
  intros Hq. revert fl. induction ds as [|d ds IH]; intros fl; [done|].
  simpl. rewrite IH. unfold write_effect. by rewrite lookup_insert_ne.
Qed.

Lemma txt_effects_content path es fl :
  apply_effects (txt_effects path es) fl !! path
  = Some (concat_strings (map (λ e, txt_line e +:+ LF) es)).
Proof.
  unfold txt_effects. rewrite !apply_effects_app.
  unfold apply_effects at 1. simpl foldl at 1.
  rewrite <- (map_map (λ e, txt_line e +:+ LF) (write_effect path)).
  rewrite (apply_writes path _ _ "") by (unfold open_effect; apply lookup_insert_eq).
  reflexivity.
Qed.

Lemma srt_writes_pieces path l :
  concat (map (srt_writes path) l)
  = map (write_effect path) (concat (map srt_pieces l)).
Proof. induction l as [|x l IH]; [done|]. simpl. by rewrite IH. Qed.

Lemma concat_srt_pieces l :
  concat_strings (concat (map srt_pieces l)) = concat_strings (map srt_block l).
Proof.
  induction l as [|x l IH]; [done|].
  change (concat (map srt_pieces (x :: l)))
    with (srt_pieces x ++ concat (map srt_pieces l))%list.
  change (map srt_block (x :: l)) with (srt_block x :: map srt_block l).
  rewrite concat_strings_app, IH.
  change (concat_strings (srt_block x :: map srt_block l))
    with (srt_block x +:+ concat_strings (map srt_block l)).
  f_equal. unfold srt_pieces, srt_block, concat_strings. simpl foldr.
  by rewrite append_nil_r, !append_assoc.
Qed.

Lemma srt_effects_content path es fl :
  apply_effects (srt_effects path es) fl !! path
  = Some (concat_strings (map srt_block (enumerate es 1))).
Proof.
  unfold srt_effects. rewrite !apply_effects_app.
  unfold apply_effects at 1. simpl foldl at 1.
  rewrite srt_writes_pieces.
  rewrite (apply_writes path _ _ "") by (unfold open_effect; apply lookup_insert_eq).
  by rewrite concat_srt_pieces.
Qed.

Lemma no_fault_nil n : ∀ b : bool, b ∈ take n [] → b = false.
Proof. intros b. rewrite take_nil. by intros ?%elem_of_nil. Qed.

Lemma save_to_txt_ok path p fl :
  save_to_txt path (mk_session p fl [])
  = (inr tt, mk_session p (apply_effects (txt_effects path (entries p)) fl) []).
Proof.
  rewrite save_to_txt_run. simpl self.
  rewrite run_ok by apply no_fault_nil. by rewrite drop_nil.
Qed.

Lemma save_to_srt_ok path p fl :
  save_to_srt path (mk_session p fl [])
  = (inr tt, mk_session p (apply_effects (srt_effects path (entries p)) fl) []).
Proof.
  rewrite save_to_srt_run. simpl self.
  rewrite run_ok by apply no_fault_nil. by rewrite drop_nil.
Qed.

(** ** datetime *)



(** ** Lines *)







(** ** Accumulation *)

(** C4: a text that is empty or made of whitespace only is rejected:
    [add_text] returns [False] and the accumulator (entries and last
    accepted text) is the one before the call. *)
Theorem add_text_blank_rejected now text self :
  text = "" ∨ all_space text = true →
  add_text now text self = (false, self).
Proof.
  intros H. assert (Hs : strip text = "").
  { destruct H as [->|H]; [done|]. by apply strip_all_space. }
  rewrite add_text_unfold, Hs. done.
Qed.

Lemma add_text_blank_rejected_witness :
  add_text noon "   " (init default_threshold) = (false, init default_threshold)
  ∧ add_text noon "" (init default_threshold) = (false, init default_threshold).
Proof.
  split.
  - apply add_text_blank_rejected. right. reflexivity.
  - apply add_text_blank_rejected. left. reflexivity.
Defined.




(** C7, as stated, fails for a string that is not empty but holds only
    whitespace: after [clear()], [add_text(" ")] appends nothing, so there
    is no entry, not one. *)
Lemma clear_then_add_space :
  " " ≠ "" ∧ len (add_text noon " " (clear hello)).2 = 0.
Proof. split; [done | reflexivity]. Qed.

(** C7, amended: [clear] empties the entries and resets the last accepted
    text, so that for every string [X] whose stripped form is not empty,
    [clear()] followed by [add_text(X)] yields exactly one entry, and the
    duplicate check compares [X] with no text accepted before the
    [clear]: it answers [False] at once, and the outcome is the same
    whatever the accumulator held before. *)
Theorem clear_then_add now X self :
  strip X ≠ "" →
  _is_duplicate (clear self) (strip X) = false
  ∧ add_text now X (clear self)
    = (true, {| similarity_threshold := similarity_threshold self;
                entries := [(now, strip X)];
                _last_text := strip X |})
  ∧ len (add_text now X (clear self)).2 = 1
  ∧ ∀ other, similarity_threshold other = similarity_threshold self →
      add_text now X (clear other) = add_text now X (clear self).
Proof.
  intros Hne. apply is_empty_false in Hne.
  assert (Hadd : ∀ p, add_text now X (clear p)
    = (true, {| similarity_threshold := similarity_threshold p;
                entries := [(now, strip X)]; _last_text := strip X |})).
  { intros p. rewrite add_text_unfold, Hne. reflexivity. }
  split; [reflexivity|]. split; [apply Hadd|]. split.
  - by rewrite Hadd.
  - intros other Hthr. by rewrite !Hadd, Hthr.
Qed.

Lemma clear_then_add_witness :
  add_text noon "X" (clear hello)
  = (true, {| similarity_threshold := default_threshold;
              entries := [(noon, "X")]; _last_text := "X" |}).
Proof.
  refine (proj1 (proj2 (clear_then_add noon "X" hello _))). by vm_compute.
Defined.


Lemma add_text_same_lower now text self :
  (similarity_threshold self <= 1)%Q →
  lower (strip text) = lower (_last_text self) →
  add_text now text self = (false, self).
Proof.
  intros Hthr Hlow. rewrite add_text_unfold.
  destruct (is_empty (strip text)) eqn:He; [done|].
  apply is_empty_false in He.
  assert (Hd : _is_duplicate self (strip text) = true).
  { apply is_duplicate_true. split.
    - intros Hl. rewrite Hl in Hlow. by apply lower_empty in Hlow.
    - rewrite (get_similarity_same_lower (_last_text self) (strip text)) by done.
      done. }
  by rewrite Hd.
Qed.

(** ** Reachable states *)

Lemma adjacent_nil {A} (x y : A) : ¬ adjacent x y [].
Proof. inversion 1. Qed.

Lemma adjacent_snoc {A} (x y z : A) l :
  adjacent x y (l ++ [z]) → adjacent x y l ∨ (last l = Some x ∧ y = z).
Proof.
  induction l as [|u l IH]; simpl; intros H.
  - inversion H as [|? ? H']; subst. by apply adjacent_nil in H'.
  - inversion H as [l0 [Hu Hl]|? ? H']; subst.
    + destruct l as [|v l]; simpl in Hl.
      * right. by inversion Hl.
      * left. inversion Hl; subst. constructor.
    + destruct (IH H') as [Ha|[Hlast ->]].
      * left. by constructor.
      * right. split; [|done]. by destruct l.
Qed.

Lemma last_text_of_snoc es e : last_text_of (es ++ [e]) = e.2.
Proof. unfold last_text_of. by rewrite last_snoc. Qed.

Lemma inv_init thr : accumulator_inv (init thr).
Proof.
  split; [done|]. split; [constructor|].
  intros e1 e2 H. by apply adjacent_nil in H.
Qed.

Lemma inv_clear p : accumulator_inv (clear p).
Proof.
  split; [done|]. split; [constructor|].
  intros e1 e2 H. by apply adjacent_nil in H.
Qed.

Lemma inv_add now text p :
  accumulator_inv p → accumulator_inv (add_text now text p).2.
Proof.
  intros (Hlast & Hne & Hadj). rewrite add_text_unfold.
  destruct (is_empty (strip text)) eqn:He; [done|].
  destruct (_is_duplicate p (strip text)) eqn:Hd; [done|].
  apply is_empty_false in He. apply is_duplicate_false in Hd.
  split; [|split]; simpl.
  - by rewrite last_text_of_snoc.
  - apply Forall_app. split; [done|]. by constructor.
  - intros e1 e2 [H|[Hl ->]]%adjacent_snoc; [by apply Hadj|].
    simpl. destruct Hd as [Hd|Hd].
    + rewrite Hlast in Hd. unfold last_text_of in Hd. rewrite Hl in Hd.
      rewrite Forall_forall in Hne. exfalso. apply (Hne e1); [|done].
      apply last_Some in Hl as [l' ->]. apply elem_of_app. right. by left.
    + rewrite Hlast in Hd. unfold last_text_of in Hd. by rewrite Hl in Hd.
Qed.

Lemma inv_apply_op p o : accumulator_inv p → accumulator_inv (apply_op p o).
Proof.
  intros Hp. destruct o as [now text| |path format w]; simpl.
  - by apply inv_add.
  - apply inv_clear.
  - by rewrite save_keeps_self.
Qed.

Lemma threshold_apply_op p o :
  similarity_threshold (apply_op p o) = similarity_threshold p.
Proof.
  destruct o as [now text| |path format w]; simpl.
  - rewrite add_text_unfold.
    destruct (is_empty (strip text)); [done|].
    by destruct (_is_duplicate p (strip text)).
  - done.
  - by rewrite save_keeps_self.
Qed.

Lemma reachable_inv thr p :
  reachable thr p → similarity_threshold p = thr ∧ accumulator_inv p.
Proof.
  induction 1 as [|p o _ [IH1 IH2]].
  - split; [done|apply inv_init].
  - split; [by rewrite threshold_apply_op|by apply inv_apply_op].
Qed.

Lemma reachable_foldl thr p ops :
  reachable thr p → reachable thr (foldl apply_op p ops).
Proof.
  revert p. induction ops as [|o ops IH]; intros p Hp; [done|].
  simpl. apply IH. by constructor.
Qed.

(** C2, as stated, fails when the two neighbours are compared in the other
    order: under the default threshold "bacbb" is accepted after "bbabb"
    (the similarity of "bbabb" to "bacbb" is 0.4), and the similarity of
    "bacbb" to "bbabb" is 0.8, which reaches the threshold. *)
Lemma adjacent_similar_in_reverse :
  reachable default_threshold two_similar
  ∧ adjacent (noon, "bbabb") (noon, "bacbb") (entries two_similar)
  ∧ (get_similarity "bbabb" "bacbb" < default_threshold)%Q
  ∧ (default_threshold <= get_similarity "bacbb" "bbabb")%Q.
Proof.
  split; [apply reachable_foldl; constructor|].
  split; [vm_compute; constructor|].
  split; by vm_compute.
Qed.

(** C2, amended: in every state the operations [add_text], [clear] and
    [save] lead to from a fresh accumulator, no entry is a duplicate of
    the entry before it: the similarity of the earlier text to the later
    one (the order in which [_is_duplicate] compares them) is below the
    configured threshold, and it lies in [[0, 1]].  Each operation leads
    to a state where this holds again. *)
Theorem no_adjacent_duplicates_reachable thr p :
  reachable thr p →
  (∀ e1 e2, adjacent e1 e2 (entries p) →
     (get_similarity e1.2 e2.2 < thr)%Q
     ∧ (0 <= get_similarity e1.2 e2.2 <= 1)%Q)
  ∧ (∀ o e1 e2, adjacent e1 e2 (entries (apply_op p o)) →
       (get_similarity e1.2 e2.2 < thr)%Q).
Proof.
  intros Hp. split.
  - intros e1 e2 Hadj. split; [|apply get_similarity_bounds].
    destruct (reachable_inv thr p Hp) as (<- & _ & _ & H). by apply H.
  - intros o e1 e2 Hadj.
    destruct (reachable_inv thr (apply_op p o)) as (<- & _ & _ & H);
      [by constructor|]. by apply H.
Qed.


Lemma no_adjacent_duplicates_reachable_witness :
  get_all_texts three_texts
  = ["Hello, world!"; "This is different."; "Completely new text."]
  ∧ (get_similarity "Hello, world!" "This is different." < default_threshold)%Q
  ∧ (get_similarity "This is different." "Completely new text." < default_threshold)%Q.
Proof.
  assert (Hr : reachable default_threshold three_texts).
  { apply reachable_foldl. constructor. }
  pose proof (proj1 (no_adjacent_duplicates_reachable _ _ Hr)) as H.
  split; [by vm_compute|]. split.
  - apply (H (noon, "Hello, world!") (noon, "This is different.")).
    vm_compute. constructor.
  - apply (H (noon, "This is different.") (noon, "Completely new text.")).
    vm_compute. constructor. constructor.
Defined.





(** ** Export *)





(** C8: when an I/O call of an export fails (creating the directories,
    opening the file, a write, closing), in txt or in srt format, [save]
    raises the error to its caller, and the accumulator (entries and last
    accepted text) is what it was: an export does not mutate it. *)
Theorem export_failure_keeps_accumulator path format s :
  fault_met (io_calls format (self s)) s →
  let r := save path format s in
  r.1 = inl OSError
  ∧ self r.2 = self s
  ∧ entries (self r.2) = entries (self s)
  ∧ _last_text (self r.2) = _last_text (self s).
Proof.
  intros Hf r. subst r. rewrite save_keeps_self. split; [|done].
  unfold fault_met, io_calls, save in *. rewrite (session_eta s).
  case_bool_decide.
  - rewrite save_to_srt_run. apply run_fault. simpl self.
    by rewrite length_srt_effects.
  - rewrite save_to_txt_run. apply run_fault. simpl self.
    by rewrite length_txt_effects.
Qed.

Lemma export_failure_keeps_accumulator_witness :
  let s := mk_session hello ∅ [false; false; true] in
  (save "out.srt" "srt" s).1 = inl OSError
  ∧ self (save "out.srt" "srt" s).2 = hello.
Proof.
  intros s.
  pose proof (export_failure_keeps_accumulator "out.srt" "srt" s) as H.
  destruct H as (H1 & H2 & _).
  - unfold fault_met. simpl. set_solver.
  - split; [exact H1 | exact H2].
Defined.



(** ** The controller tick *)

Section Tick.
Context {Image : Type}.
Variable grab : Region → exn + Image.
Variable extract_text : Image → exn + string.

Lemma capture_unset sc (l : list (call Image)) :
  _region sc = None → capture grab sc l = (inr None, l).
Proof. intros Hr. unfold capture. by rewrite Hr. Qed.

(** With a region set, [capture] calls the grabber and hands on what it
    gets: an image or the exception, never [None]. *)
Lemma capture_set sc r (l : list (call Image)) :
  _region sc = Some r →
  capture grab sc l
  = (match grab r with inl e => inl e | inr img => inr (Some img) end,
     (l ++ [CallGrab r])%list).
Proof.
  intros Hr. unfold capture. rewrite Hr. destruct r as [[[x y] w] h].
  unfold perform. rewrite !bind_unfold. unfold modify. simpl.
  by destruct (grab (x, y, w, h)).
Qed.

Lemma capture_None_iff sc (l : list (call Image)) :
  (capture grab sc l).1 = inr None ↔ _region sc = None.
Proof.
  split; [|intros Hr; by rewrite capture_unset].
  destruct (_region sc) as [r|] eqn:Hr; [|done].
  rewrite (capture_set sc r l Hr). simpl. by destruct (grab r).
Qed.

Lemma set_log_same (w : MainWindow Image) : set_log Image (log w) w = w.
Proof. by destruct w. Qed.

(** C9, amended: when no capture region is set, [capture] returns no
    image and does not call the grabber; and a tick whose [capture]
    returns no image (which happens for an unset region only) calls
    neither the OCR engine nor [add_text]: the window, its accumulator and
    the call log are what they were. *)
Theorem tick_skipped_without_image now (w : MainWindow Image) :
  (capture grab (mw_capture w) (log w)).1 = inr None →
  _region (mw_capture w) = None
  ∧ capture grab (mw_capture w) (log w) = (inr None, log w)
  ∧ _on_capture_tick grab extract_text now w = (inr tt, w)
  ∧ processor (_on_capture_tick grab extract_text now w).2 = processor w
  ∧ log (_on_capture_tick grab extract_text now w).2 = log w.
Proof.
  intros Hc. apply capture_None_iff in Hc.
  pose proof (capture_unset (mw_capture w) (log w) Hc) as Hcap.
  assert (Htick : _on_capture_tick grab extract_text now w = (inr tt, w)).
  { unfold _on_capture_tick. rewrite bind_unfold. unfold gets.
    rewrite bind_unfold. unfold logged. rewrite Hcap. by rewrite set_log_same. }
  by rewrite Htick.
Qed.
End Tick.

(** C9, as stated, fails for a region that is set but empty: a region of
    width and height 0 is a 4-tuple, which Python takes as true, so
    [capture] calls the grabber and returns what the grabber returns. *)
Lemma capture_empty_region :
  empty_region (0, 0, 0, 0)%Z
  ∧ capture grab_unit {| _region := Some (0, 0, 0, 0)%Z |} []
    = (inr (Some tt), [CallGrab (0, 0, 0, 0)%Z])
  ∧ ¬ ∃ grab : Region → exn + unit,
        (capture grab {| _region := Some (0, 0, 0, 0)%Z |} []).1 = inr None.
Proof.
  split; [left; simpl; lia|]. split; [reflexivity|].
  intros [grab Hg]. by apply capture_None_iff in Hg.
Qed.

Lemma tick_skipped_without_image_witness :
  _on_capture_tick grab_unit read_hello noon fresh_window = (inr tt, fresh_window).
Proof.
  refine (proj1 (proj2 (proj2
    (tick_skipped_without_image grab_unit read_hello noon fresh_window _)))).
  reflexivity.
Defined.

(** ** More on accumulation *)

Lemma is_duplicate_threshold_above_one p t :
  (1 < similarity_threshold p)%Q → _is_duplicate p t = false.
Proof.
  intros Hthr. apply is_duplicate_false. right.
  eapply Qle_lt_trans; [|exact Hthr]. apply get_similarity_bounds.
Qed.

(** X1: offering the same text twice in a row never stores it
    twice.  For a threshold of at most 1 the second [add_text] returns
    [False] and leaves the accumulator as the first call left it, whether
    the first call accepted the text, rejected it as blank or rejected it
    as a duplicate. *)
Theorem add_text_again now1 now2 text p :
  (similarity_threshold p <= 1)%Q →
  add_text now2 text (add_text now1 text p).2
  = (false, (add_text now1 text p).2).
Proof.
  intros Hthr. rewrite (add_text_unfold now1).
  destruct (is_empty (strip text)) eqn:He.
  { simpl. by rewrite add_text_unfold, He. }
  destruct (_is_duplicate p (strip text)) eqn:Hd.
  { simpl. by rewrite add_text_unfold, He, Hd. }
  simpl. by apply add_text_same_lower.
Qed.

Lemma add_text_again_witness :
  add_text noon "Completely new text." (add_text noon "Completely new text." hello).2
  = (false, (add_text noon "Completely new text." hello).2).
Proof. apply (add_text_again noon noon "Completely new text." hello). by vm_compute. Defined.

(** X2: a threshold above 1 switches the duplicate
    check off.  Every text with something left after [strip()] is accepted,
    its stripped form appended with the time stamp and remembered as last
    text, also when it equals the last text. *)
Theorem add_text_threshold_above_one now text p :
  (1 < similarity_threshold p)%Q → strip text ≠ "" →
  add_text now text p
  = (true, {| similarity_threshold := similarity_threshold p;
              entries := entries p ++ [(now, strip text)];
              _last_text := strip text |}).
Proof.
  intros Hthr Hne. rewrite add_text_unfold.
  apply is_empty_false in Hne. rewrite Hne.
  by rewrite is_duplicate_threshold_above_one.
Qed.

Lemma add_text_threshold_above_one_witness :
  (add_text noon "Hello, world!" hello_strict).1 = true.
Proof.
  rewrite (add_text_threshold_above_one noon "Hello, world!" hello_strict);
    [reflexivity | by vm_compute | by vm_compute].
Defined.

(** X3: with a threshold of 0 or less a reachable
    accumulator never holds more than one entry: after the first accepted
    text every other text counts as a duplicate, until [clear()]. *)
Theorem threshold_zero_one_entry thr p :
  reachable thr p → (thr <= 0)%Q → (length (entries p) ≤ 1)%nat.
Proof.
  intros Hp Hthr. induction Hp as [|p o Hp IH]; [simpl; lia|].
  destruct (reachable_inv thr p Hp) as (Hpthr & Hlast & Hne & _).
  destruct o as [now text| |path format w]; simpl.
  - rewrite add_text_unfold.
    destruct (is_empty (strip text)) eqn:He; [done|].
    destruct (_is_duplicate p (strip text)) eqn:Hd; [done|]. simpl.
    apply is_duplicate_false in Hd. rewrite length_app. simpl.
    destruct (entries p) as [|e es] eqn:Hes; [simpl; lia|].
    exfalso. destruct Hd as [Hd|Hd].
    + rewrite Hlast in Hd. unfold last_text_of in Hd.
      destruct (last (e :: es)) as [e'|] eqn:Hl.
      * rewrite Forall_forall in Hne. apply (Hne e'); [|done].
        apply last_Some in Hl as [l' ->]. apply elem_of_app. right. by left.
      * by apply last_None in Hl.
    + apply Qlt_not_le in Hd. apply Hd. rewrite Hpthr.
      eapply Qle_trans; [exact Hthr|]. apply get_similarity_bounds.
  - lia.
  - by rewrite save_keeps_self.
Qed.

Lemma threshold_zero_one_entry_witness :
  (length (entries zero_threshold_run) ≤ 1)%nat.
Proof.
  apply (threshold_zero_one_entry 0); [|done].
  apply reachable_foldl. constructor.
Defined.

Lemma reachable_texts_stripped thr p :
  reachable thr p → Forall (λ e : Entry, strip e.2 = e.2) (entries p).
Proof.
  induction 1 as [|p o _ IH]; [constructor|].
  destruct o as [now text| |path format w]; simpl.
  - rewrite add_text_unfold.
    destruct (is_empty (strip text)); [done|].
    destruct (_is_duplicate p (strip text)); [done|]. simpl.
    apply Forall_app. split; [done|]. constructor; [|done]. apply strip_idem.
  - constructor.
  - by rewrite save_keeps_self.
Qed.

Lemma latest_of_entries (es : list Entry) :
  Forall (λ e : Entry, e.2 ≠ "") es →
  (if is_empty (last_text_of es) then None else Some (last_text_of es))
  = last (map snd es).
Proof.
  destruct es as [|e0 es0] using rev_ind; [reflexivity|].
  intros [_ He]%Forall_app. apply Forall_cons in He as [He _].
  rewrite last_text_of_snoc, map_app. cbn [map]. rewrite last_snoc.
  apply is_empty_false in He. by rewrite He.
Qed.

(** X4: in every reachable state the texts of
    [get_all_texts()] are non-empty and equal to their own [strip()],
    [get_latest_text()] is the last of them, and it is [None] exactly when
    [len()] is 0. *)
Theorem reachable_texts thr p :
  reachable thr p →
  Forall (λ t, t ≠ "" ∧ strip t = t) (get_all_texts p)
  ∧ get_latest_text p = last (get_all_texts p)
  ∧ (get_latest_text p = None ↔ len p = 0%nat).
Proof.
  intros Hp. destruct (reachable_inv thr p Hp) as (_ & Hlast & Hne & _).
  pose proof (reachable_texts_stripped thr p Hp) as Hst.
  assert (Hl : get_latest_text p = last (get_all_texts p)).
  { unfold get_latest_text. rewrite Hlast. by apply latest_of_entries. }
  split; [|split; [done|]].
  - unfold get_all_texts. apply Forall_map.
    rewrite Forall_forall in *. intros e He. split; [by apply Hne|by apply Hst].
  - rewrite Hl. unfold len, get_all_texts. rewrite last_None.
    split.
    + intros H. apply (f_equal length) in H. by rewrite length_map in H.
    + intros H. by destruct (entries p).
Qed.

Lemma reachable_texts_witness :
  get_latest_text three_texts = Some "Completely new text.".
Proof.
  assert (Hr : reachable default_threshold three_texts).
  { apply reachable_foldl. constructor. }
  rewrite (proj1 (proj2 (reachable_texts _ _ Hr))). reflexivity.
Defined.

Section RatioEdges.
Context {A : Type} `{EqDecision A}.

Lemma ratio_nil_r (a : list A) : a ≠ [] → (ratio a [] == 0)%Q.
Proof.
  intros Ha. unfold ratio.
  destruct (found_blocks_total a []) as (_ & _ & Hb). simpl in Hb.
  replace (matches a []) with 0%nat by lia.
  unfold calculate_ratio. rewrite bool_decide_eq_false_2; [done|].
  destruct a; [done|]. simpl. lia.
Qed.

End RatioEdges.

Lemma length_chars_lower s : length (chars (lower s)) = String.length s.
Proof. induction s as [|c s IH]; [done|]. simpl. by rewrite IH. Qed.

(** X5: similarity against the empty string.  Two empty
    strings have similarity 1; a non-empty string and the empty string
    have similarity 0, in either order. *)
Theorem get_similarity_empty :
  (get_similarity "" "" == 1)%Q
  ∧ ∀ t, t ≠ "" →
      (get_similarity "" t == 0)%Q ∧ (get_similarity t "" == 0)%Q.
Proof.
  split; [by apply get_similarity_same_lower|].
  intros t Ht. split; [by apply get_similarity_empty_last|].
  unfold get_similarity. apply ratio_nil_r. by destruct t.
Qed.



(** ** More on the export *)

Lemma save_run path format s :
  save path format s
  = for_each ([id; open_effect path]
              ++ map (write_effect path) (export_pieces format (self s))
              ++ [id])%list io s.
Proof.
  unfold save, export_pieces. case_bool_decide.
  - rewrite save_to_srt_run. unfold srt_effects. by rewrite srt_writes_pieces.
  - rewrite save_to_txt_run. unfold txt_effects. by rewrite map_map.
Qed.





(** X8: an export without faults overwrites.  The content
    of the target afterwards does not depend on what the disk held before,
    and a second export of the same accumulator to the same path leaves the
    same content: nothing is appended. *)
Theorem save_overwrites path format p fl fl' :
  let r := save path format (mk_session p fl []) in
  files (fs (save path format (mk_session p fl' [])).2) !! path
  = files (fs r.2) !! path
  ∧ files (fs (save path format r.2).2) !! path = files (fs r.2) !! path.
Proof.
  intros r. subst r.
  assert (H : ∀ f, save path format (mk_session p f [])
                   = (inr tt, mk_session p
                        (apply_effects
                           (if bool_decide (lower format = "srt")
                            then srt_effects path (entries p)
                            else txt_effects path (entries p)) f) [])).
  { intros f. unfold save. case_bool_decide; [apply save_to_srt_ok|apply save_to_txt_ok]. }
  assert (Hc : ∀ f, apply_effects
                      (if bool_decide (lower format = "srt")
                       then srt_effects path (entries p)
                       else txt_effects path (entries p)) f !! path
                    = Some (concat_strings
                        (if bool_decide (lower format = "srt")
                         then map srt_block (enumerate (entries p) 1)
                         else map (λ e, txt_line e +:+ LF) (entries p)))).
  { intros f. case_bool_decide; [apply srt_effects_content|apply txt_effects_content]. }
  rewrite !H. simpl. rewrite H. simpl. by rewrite !Hc.
Qed.

(** ** More on datetime *)

(** X9: the end time of an srt cue as a time of day.
    For a valid time stamp the seconds since midnight of
    [start + timedelta(seconds=2)] are those of the start plus 2, modulo
    86400; so the printed end is earlier than the printed start exactly
    when the start lies in the last two seconds of a day, and the two never
    coincide. *)
Theorem srt_end_wraps_at_midnight dt :
  valid_datetime dt →
  seconds_of_day (add_seconds dt 2) = ((seconds_of_day dt + 2) mod 86400)%Z
  ∧ (seconds_of_day (add_seconds dt 2) < seconds_of_day dt
     ↔ 86398 ≤ seconds_of_day dt)%Z
  ∧ (seconds_of_day (add_seconds dt 2) ≠ seconds_of_day dt).
Proof.
  intros (Hh & Hm & Hs & _).
  assert (H1 : seconds_of_day (add_seconds dt 2)
               = ((seconds_of_day dt + 2) mod 86400)%Z).
  { unfold seconds_of_day, add_seconds. simpl.
    set (total := (hour dt * 3600 + minute dt * 60 + second dt + 2)%Z).
    pose proof (Z.div_mod (total mod 86400) 3600 ltac:(done)) as H2.
    pose proof (Z.div_mod ((total mod 86400) mod 3600) 60 ltac:(done)) as H3.
    lia. }
  rewrite H1. unfold seconds_of_day in *.
  set (sod := (hour dt * 3600 + minute dt * 60 + second dt)%Z) in *.
  assert (0 ≤ sod < 86400)%Z by (subst sod; lia).
  destruct (decide (86398 ≤ sod)%Z) as [Hge|Hlt].
  - replace ((sod + 2) mod 86400)%Z with (sod + 2 - 86400)%Z.
    + lia.
    + apply Z.mod_unique with 1%Z; lia.
  - rewrite Z.mod_small by lia. lia.
Qed.

Lemma srt_end_wraps_at_midnight_witness :
  strftime_HMS000 last_second = "23:59:59,000"
  ∧ strftime_HMS000 (add_seconds last_second 2) = "00:00:01,000"
  ∧ (seconds_of_day (add_seconds last_second 2) < seconds_of_day last_second)%Z.
Proof.
  split; [reflexivity|]. split; [reflexivity|].
  apply (srt_end_wraps_at_midnight last_second); by vm_compute.
Defined.

Local Close Scope string_scope.

(** ** The matcher: a match stands for equal slices *)

Section Validity.
Context {A : Type} `{EqDecision A}.
Variables a b : list A.

Lemma elem_of_b2j_get (elt : A) j : j ∈ b2j_get b elt → b !! j = Some elt.
Proof.
  unfold b2j_get. destruct (popular b elt); [by intros ?%elem_of_nil|].
  intros [_ Hj]%elem_of_indices_from. by rewrite Nat.sub_0_r in Hj.
Qed.

Lemma scan_row_valid blo bhi j2len i elt js newj2len best :
  a !! i = Some elt →
  (∀ j, j ∈ js → b !! j = Some elt) →
  (∀ j v, j2len !! j = Some v →
     1 ≤ v ∧ v ≤ i ∧ v ≤ S j
     ∧ ∀ t, t < v → ∃ x, a !! (i - 1 - t) = Some x ∧ b !! (j - t) = Some x) →
  row_valid a b i newj2len → valid_match a b best →
  let r := scan_row blo bhi j2len i js newj2len best in
  row_valid a b i r.1 ∧ valid_match a b r.2.
Proof.
  intros Hi Hjs Hold. revert newj2len best.
  induction js as [|j js IH]; intros newj2len best Hnew Hbest; simpl; [done|].
  assert (Hjs' : ∀ j0, j0 ∈ js → b !! j0 = Some elt).
  { intros j0 Hj0. apply Hjs. by right. }
  case_bool_decide as Hlo; [by apply IH|].
  case_bool_decide as Hhi; [done|].
  assert (Hbj : b !! j = Some elt) by (apply Hjs; left).
  set (k := j2len_get j2len j + 1).
  assert (Hk : 1 ≤ k ∧ k ≤ S i ∧ k ≤ S j
               ∧ ∀ t, t < k → ∃ x, a !! (i - t) = Some x ∧ b !! (j - t) = Some x).
  { subst k. destruct j as [|j']; simpl.
    - split; [lia|]. split; [lia|]. split; [lia|].
      intros t Ht. assert (t = 0) as -> by lia. exists elt.
      by rewrite !Nat.sub_0_r.
    - destruct (j2len !! j') as [v|] eqn:E; simpl.
      + destruct (Hold j' v E) as (H1 & H2 & H3 & H4).
        split; [lia|]. split; [lia|]. split; [lia|].
        intros t Ht. destruct t as [|t].
        * exists elt. by rewrite !Nat.sub_0_r.
        * destruct (H4 t ltac:(lia)) as (x & Hx1 & Hx2). exists x.
          replace (i - S t) with (i - 1 - t) by lia.
          by replace (S j' - S t) with (j' - t) by lia.
      + split; [lia|]. split; [lia|]. split; [lia|].
        intros t Ht. assert (t = 0) as -> by lia. exists elt.
        by rewrite !Nat.sub_0_r. }
  assert (Hnew' : row_valid a b i (<[j:=k]> newj2len)).
  { intros j0 v. rewrite lookup_insert_Some. intros [[<- <-]|[_ Hv]]; [done|].
    by apply Hnew. }
  case_bool_decide; apply IH; try done.
  destruct Hk as (H1 & H2 & H3 & H4).
  unfold valid_match. intros t Ht. simpl in *.
  destruct (H4 (k - 1 - t) ltac:(lia)) as (x & Hx1 & Hx2).
  exists x. replace (i + 1 - k + t) with (i - (k - 1 - t)) by lia.
  by replace (j + 1 - k + t) with (j - (k - 1 - t)) by lia.
Qed.

Lemma row_valid_shift i st :
  row_valid a b i st →
  ∀ j v, st !! j = Some v →
    1 ≤ v ∧ v ≤ S i ∧ v ≤ S j
    ∧ ∀ t, t < v → ∃ x, a !! (S i - 1 - t) = Some x ∧ b !! (j - t) = Some x.
Proof.
  intros H j v Hv. destruct (H j v Hv) as (H1 & H2 & H3 & H4).
  repeat split; [lia..|]. intros t Ht.
  replace (S i - 1 - t) with (i - t) by lia. by apply H4.
Qed.

Lemma valid_match_empty i j : valid_match a b (i, j, 0).
Proof. unfold valid_match. intros t Ht. simpl in Ht. lia. Qed.

Lemma scan_valid alo ahi blo bhi :
  valid_match a b (scan a b alo ahi blo bhi).2.
Proof.
  unfold scan.
  assert (H : ∀ n,
    let r := foldl (scan_step a b blo bhi) (∅, (alo, blo, 0)) (seq alo n) in
    (∀ j v, r.1 !! j = Some v →
       1 ≤ v ∧ v ≤ alo + n ∧ v ≤ S j
       ∧ ∀ t, t < v → ∃ x, a !! (alo + n - 1 - t) = Some x ∧ b !! (j - t) = Some x)
    ∧ valid_match a b r.2).
  { induction n as [|n [IH1 IH2]].
    - simpl. split; [intros j v; by rewrite lookup_empty|apply valid_match_empty].
    - rewrite seq_S, foldl_app. cbn [foldl].
      set (st := foldl (scan_step a b blo bhi) (∅, (alo, blo, 0)) (seq alo n)) in *.
      unfold scan_step. destruct (a !! (alo + n)) as [elt|] eqn:Ha.
      + assert (He : row_valid a b (alo + n) ∅).
        { intros j v. by rewrite lookup_empty. }
        destruct (scan_row_valid blo bhi st.1 (alo + n) elt (b2j_get b elt) ∅ st.2
                    Ha (elem_of_b2j_get elt) IH1 He IH2) as [H1 H2].
        split; [|done]. intros j v Hv.
        destruct (H1 j v Hv) as (?&?&?&H4). repeat split; [lia..|].
        intros t Ht. replace (alo + S n - 1 - t) with (alo + n - t) by lia.
        by apply H4.
      + simpl. split; [intros j v; by rewrite lookup_empty|done]. }
  apply H.
Qed.

Lemma extend_left_valid alo blo besti bestj bestsize :
  valid_match a b (besti, bestj, bestsize) →
  valid_match a b (extend_left a b alo blo besti bestj bestsize).
Proof.
  revert bestj bestsize.
  induction besti as [|i IH]; intros bestj bestsize Hv; [done|].
  destruct bestj as [|j]; [done|]. cbn [extend_left].
  destruct (bool_decide (alo < S i) && bool_decide (blo < S j) && same_at a b i j) eqn:E;
    [|done].
  apply andb_true_iff in E as [_ E]. apply IH.
  unfold same_at in E.
  destruct (a !! i) as [x|] eqn:Ha; [|done].
  destruct (b !! j) as [y|] eqn:Hb; [|done].
  apply bool_decide_eq_true in E as <-.
  unfold valid_match in *. intros t Ht. simpl in *. destruct t as [|t].
  - exists x. by rewrite !Nat.add_0_r.
  - destruct (Hv t ltac:(lia)) as (z & Hz1 & Hz2). exists z.
    replace (i + S t) with (S i + t) by lia.
    by replace (j + S t) with (S j + t) by lia.
Qed.

Lemma extend_right_valid ahi bhi fuel besti bestj bestsize :
  valid_match a b (besti, bestj, bestsize) →
  valid_match a b (extend_right a b ahi bhi fuel besti bestj bestsize).
Proof.
  revert bestsize. induction fuel as [|fuel IH]; intros bestsize Hv; [done|].
  cbn [extend_right].
  destruct (bool_decide (besti + bestsize < ahi)
            && bool_decide (bestj + bestsize < bhi)
            && same_at a b (besti + bestsize) (bestj + bestsize)) eqn:E; [|done].
  apply andb_true_iff in E as [_ E]. apply IH.
  unfold same_at in E.
  destruct (a !! (besti + bestsize)) as [x|] eqn:Ha; [|done].
  destruct (b !! (bestj + bestsize)) as [y|] eqn:Hb; [|done].
  apply bool_decide_eq_true in E as <-.
  unfold valid_match in *. intros t Ht. simpl in *.
  destruct (decide (t = bestsize)) as [->|Hne]; [by exists x|].
  apply Hv. lia.
Qed.

Lemma find_longest_match_valid alo ahi blo bhi :
  valid_match a b (find_longest_match a b alo ahi blo bhi).
Proof.
  unfold find_longest_match.
  pose proof (scan_valid alo ahi blo bhi) as Hs.
  destruct (scan a b alo ahi blo bhi).2 as [[bi bj] bs].
  pose proof (extend_left_valid alo blo bi bj bs Hs) as Hl.
  destruct (extend_left a b alo blo bi bj bs) as [[li lj] ls].
  by apply extend_right_valid.
Qed.

Lemma blocks_loop_valid fuel queue ms res :
  Forall (valid_match a b) ms →
  blocks_loop a b fuel queue ms = Some res →
  Forall (valid_match a b) res.
Proof.
  revert queue ms. induction fuel as [|fuel IH]; intros queue ms Hms; [done|].
  destruct queue as [|[[[alo ahi] blo] bhi] queue]; [by intros [= <-]|].
  rewrite blocks_loop_step.
  pose proof (find_longest_match_valid alo ahi blo bhi) as Hm.
  destruct (find_longest_match a b alo ahi blo bhi) as [[i j] k].
  case_bool_decide; [by apply IH|]. cbv zeta.
  apply IH. apply Forall_app. split; [done|]. by constructor.
Qed.

Lemma merge_adjacent_valid current ms :
  valid_match a b current → Forall (valid_match a b) ms →
  Forall (valid_match a b) (merge_adjacent current ms).
Proof.
  revert current. induction ms as [|[[i2 j2] k2] ms IH];
    intros [[i1 j1] k1] Hc Hms; cbn [merge_adjacent].
  - destruct (bool_decide (k1 = 0)); [constructor|by constructor].
  - apply Forall_cons in Hms as [Hm Hms].
    destruct (bool_decide (i1 + k1 = i2) && bool_decide (j1 + k1 = j2)) eqn:E.
    + apply andb_true_iff in E as [E1 E2].
      apply bool_decide_eq_true in E1, E2. subst i2 j2.
      apply IH; [|done]. unfold valid_match in *. intros t Ht. simpl in *.
      destruct (decide (t < k1)) as [Hlt|Hge]; [by apply Hc|].
      destruct (Hm (t - k1) ltac:(lia)) as (x & Hx1 & Hx2).
      exists x. replace (i1 + t) with (i1 + k1 + (t - k1)) by lia.
      by replace (j1 + t) with (j1 + k1 + (t - k1)) by lia.
    + apply Forall_app. split; [|by apply IH].
      destruct (bool_decide (k1 = 0)); [constructor|by constructor].
Qed.

(** Every block of [get_matching_blocks] stands for equal slices of [a]
    and [b]. *)
Lemma get_matching_blocks_valid :
  Forall (valid_match a b) (get_matching_blocks a b).
Proof.
  unfold get_matching_blocks. apply Forall_app. split.
  - apply merge_adjacent_valid; [apply valid_match_empty|].
    rewrite merge_sort_Permutation.
    destruct (found_blocks_total a b) as [Hres _].
    by apply (blocks_loop_valid _ _ [] _ ltac:(constructor) Hres).
  - constructor; [apply valid_match_empty|constructor].
Qed.

(** Sequences without a common element have no match. *)
Lemma matches_disjoint :
  (∀ x, x ∈ a → x ∉ b) → matches a b = 0.
Proof.
  intros Hd. unfold matches.
  pose proof get_matching_blocks_valid as Hv.
  induction (get_matching_blocks a b) as [|[[i j] k] ms IH]; [done|].
  apply Forall_cons in Hv as [Hm Hv]. simpl. rewrite IH by done.
  destruct k as [|k]; [done|]. unfold valid_match in Hm. simpl in Hm.
  destruct (Hm 0 ltac:(lia)) as (x & Hx1 & Hx2).
  exfalso. apply (Hd x); by eapply list_elem_of_lookup_2.
Qed.

Lemma ratio_disjoint :
  (∀ x, x ∈ a → x ∉ b) → a ≠ [] ∨ b ≠ [] → (ratio a b == 0)%Q.
Proof.
  intros Hd Hne. unfold ratio. rewrite matches_disjoint by done.
  unfold calculate_ratio. rewrite bool_decide_eq_false_2; [done|].
  destruct a, b; simpl; try lia. by destruct Hne.
Qed.
End Validity.

Local Open Scope string_scope.

(** ** No common character *)

(** X10: a text that shares no character with the last
    accepted text, letter case aside, has similarity 0 to it; under any
    threshold above 0 [add_text] accepts it, and [get_latest_text()] then
    returns its stripped form. *)
Theorem add_text_no_common_char now text p :
  (0 < similarity_threshold p)%Q →
  strip text ≠ "" →
  (∀ c, c ∈ chars (lower (_last_text p)) → c ∉ chars (lower (strip text))) →
  (get_similarity (_last_text p) (strip text) == 0)%Q
  ∧ (add_text now text p).1 = true
  ∧ get_latest_text (add_text now text p).2 = Some (strip text).
Proof.
  intros Hthr Hne Hd.
  assert (Hsim : (get_similarity (_last_text p) (strip text) == 0)%Q).
  { unfold get_similarity. apply ratio_disjoint; [done|]. right.
    intros Hnil. apply Hne.
    assert (Hlen : String.length (strip text) = 0).
    { rewrite <- length_chars_lower. by rewrite Hnil. }
    by destruct (strip text). }
  split; [done|]. rewrite add_text_unfold.
  apply is_empty_false in Hne. rewrite Hne.
  assert (Hdup : _is_duplicate p (strip text) = false).
  { apply is_duplicate_false. right. by rewrite Hsim. }
  rewrite Hdup. split; [done|]. unfold get_latest_text. simpl. by rewrite Hne.
Qed.

Lemma add_text_no_common_char_witness :
  (add_text noon " 42 " hello).1 = true.
Proof.
  refine (proj1 (proj2 (add_text_no_common_char noon " 42 " hello _ _ _))).
  - reflexivity.
  - by vm_compute.
  - apply (Forall_forall (λ c, c ∉ chars (lower (strip " 42 ")))).
    apply (bool_decide_unpack _). by vm_compute.
Defined.


(** ** OCREngine *)

Lemma keep_bright_twice t1 t2 (px : Pixel) :
  (t1 ≤ t2)%Z → keep_bright t2 (keep_bright t1 px) = keep_bright t2 px.
Proof.
  intros Ht. unfold keep_bright.
  destruct (decide (t1 ≤ brightness px)%Z) as [H1|H1].
  - by rewrite (bool_decide_eq_true_2 _ H1).
  - rewrite (bool_decide_eq_false_2 _ H1).
    rewrite (bool_decide_eq_false_2 (t2 ≤ brightness px)%Z) by lia.
    by destruct (bool_decide (t2 ≤ brightness (0, 0, 0))%Z).
Qed.

Lemma pixel_at_extract engine image r c :
  pixel_at (_extract_bright_text engine image) r c
  = keep_bright (brightness_threshold engine) <$> pixel_at image r c.
Proof.
  unfold pixel_at, _extract_bright_text. rewrite list_lookup_fmap.
  destruct (image !! r) as [row|]; simpl; [|done].
  by rewrite list_lookup_fmap.
Qed.

Lemma extract_bright_text_twice engine t image :
  (brightness_threshold engine ≤ t)%Z →
  _extract_bright_text (set_subtitle_mode true t engine)
    (_extract_bright_text engine image)
  = _extract_bright_text (set_subtitle_mode true t engine) image.
Proof.
  intros Ht. unfold _extract_bright_text. simpl.
  rewrite <- list_fmap_compose. apply list_fmap_ext. intros _ row _. simpl.
  rewrite <- list_fmap_compose. apply list_fmap_ext. intros _ px _. simpl.
  by apply keep_bright_twice.
Qed.

Lemma extract_bright_text_idem engine image :
  _extract_bright_text engine (_extract_bright_text engine image)
  = _extract_bright_text engine image.
Proof.
  unfold _extract_bright_text.
  rewrite <- list_fmap_compose. apply list_fmap_ext. intros _ row _. simpl.
  rewrite <- list_fmap_compose. apply list_fmap_ext. intros _ px _. simpl.
  by apply keep_bright_twice.
Qed.

(** X11: [_extract_bright_text] works pixel by pixel:
    it keeps a pixel whose largest channel reaches the threshold and
    blackens every other one.  Filtering twice is filtering once, and
    filtering with a threshold [t] after filtering with a lower one equals
    filtering with [t] alone. *)
Theorem extract_bright_text_raise engine t image :
  (brightness_threshold engine ≤ t)%Z →
  _extract_bright_text (set_subtitle_mode true t engine)
    (_extract_bright_text engine image)
  = _extract_bright_text (set_subtitle_mode true t engine) image
  ∧ _extract_bright_text engine (_extract_bright_text engine image)
    = _extract_bright_text engine image
  ∧ ∀ r c, pixel_at (_extract_bright_text engine image) r c
           = keep_bright (brightness_threshold engine) <$> pixel_at image r c.
Proof.
  intros Ht. split; [by apply extract_bright_text_twice|].
  split; [apply extract_bright_text_idem|].
  intros r c. apply pixel_at_extract.
Qed.

Lemma extract_bright_text_raise_witness :
  _extract_bright_text (set_subtitle_mode true 250 (new_engine "eng"))
    (_extract_bright_text (new_engine "eng") sample_bitmap)
  = [[(255, 255, 255); (10, 250, 3)]; [(0, 0, 0); (0, 0, 0)]]%Z.
Proof.
  rewrite (proj1 (extract_bright_text_raise (new_engine "eng") 250 sample_bitmap
                    ltac:(by vm_compute))).
  reflexivity.
Defined.

(** X12: the ends of the threshold range, on a
    picture whose channels are bytes.  With a threshold of 0 or less
    [_extract_bright_text] returns the picture unchanged, with a threshold
    above 255 it returns an all black picture, and the channels of its
    result are bytes again. *)
Theorem extract_bright_text_edges engine image :
  valid_bitmap image →
  ((brightness_threshold engine ≤ 0)%Z →
   _extract_bright_text engine image = image)
  ∧ ((255 < brightness_threshold engine)%Z →
     Forall (Forall (λ px : Pixel, px = (0, 0, 0)%Z))
       (_extract_bright_text engine image))
  ∧ valid_bitmap (_extract_bright_text engine image).
Proof.
  intros Hv. unfold _extract_bright_text, valid_bitmap in *.
  split; [|split].
  - intros Ht. rewrite <- (list_fmap_id image) at 2.
    apply Forall_fmap_ext. eapply Forall_impl; [exact Hv|]. intros row Hrow. simpl.
    rewrite <- (list_fmap_id row) at 2.
    apply Forall_fmap_ext. eapply Forall_impl; [exact Hrow|].
    intros [[r g] bl] Hpx. simpl in *. unfold keep_bright, brightness. simpl.
    rewrite bool_decide_eq_true_2; [done|lia].
  - intros Ht. apply Forall_fmap. eapply Forall_impl; [exact Hv|].
    intros row Hrow. simpl. apply Forall_fmap. eapply Forall_impl; [exact Hrow|].
    intros [[r g] bl] Hpx. simpl in *. unfold keep_bright, brightness. simpl.
    rewrite bool_decide_eq_false_2; [done|lia].
  - apply Forall_fmap. eapply Forall_impl; [exact Hv|].
    intros row Hrow. simpl. apply Forall_fmap. eapply Forall_impl; [exact Hrow|].
    intros [[r g] bl] Hpx. simpl in *. unfold keep_bright.
    case_bool_decide; simpl; lia.
Qed.

Lemma extract_bright_text_edges_witness :
  _extract_bright_text (set_subtitle_mode true 0 (new_engine "eng")) sample_bitmap
  = sample_bitmap.
Proof.
  apply (extract_bright_text_edges (set_subtitle_mode true 0 (new_engine "eng"))
           sample_bitmap); [|done].
  repeat constructor; simpl; lia.
Defined.

Section EngineFacts.
Context {Prepared : Type}.
Variable enhance : Bitmap → Prepared.
Variable raw : Bitmap → Prepared.
Variable image_to_string : Prepared → string → string → tesseract_answer.

(** X13: the text that [extract_text] returns is
    stripped: [strip()] changes nothing more.  And in subtitle mode a
    picture that went through [_extract_bright_text] beforehand is read as
    the original picture is. *)
Theorem extract_text_stripped engine preprocess image :
  (∀ text, extract_text enhance raw image_to_string engine preprocess image
           = inr text → strip text = text)
  ∧ (subtitle_mode engine = true →
     extract_text enhance raw image_to_string engine true
       (_extract_bright_text engine image)
     = extract_text enhance raw image_to_string engine true image).
Proof.
  unfold extract_text. split.
  - intros text.
    destruct (image_to_string _ _ _); [|done|by intros [= <-]].
    intros [= <-]. apply strip_idem.
  - intros Hs. unfold preprocess_image. rewrite Hs.
    by rewrite extract_bright_text_idem.
Qed.
End EngineFacts.

(** ** ScreenCapture: both ways to grab *)

Section GrabberFacts.
Context {Image : Type}.
Variable grab : Region → exn + Image.

(** X14: [capture_region(x, y, w, h)] grabs what
    [set_region(x, y, w, h)] followed by [capture()] grabs: both make the
    same single call of the grabber and hand on the same picture or the
    same exception.  After [set_region], [capture()] never returns [None],
    whatever the region, and [get_region()] returns the region. *)
Theorem capture_region_as_capture x y width height sc (l : list (call Image)) :
  let direct := capture_region grab x y width height l in
  let stored := capture grab (set_region x y width height sc) l in
  stored.1 = (match direct.1 with inl e => inl e | inr img => inr (Some img) end)
  ∧ stored.2 = direct.2
  ∧ direct.2 = (l ++ [CallGrab (x, y, width, height)])%list
  ∧ stored.1 ≠ inr None
  ∧ get_region (set_region x y width height sc) = Some (x, y, width, height).
Proof.
  cbv zeta.
  rewrite (capture_set grab (set_region x y width height sc)
             (x, y, width, height) l eq_refl).
  unfold capture_region, perform. rewrite bind_unfold. unfold modify. simpl.
  destruct (grab (x, y, width, height)) as [e|img]; done.
Qed.
End GrabberFacts.

(** ** The selection frame *)

Section FrameFacts.
Variable point_bool : Point → bool.

Lemma frame_step_size e f :
  roomy (geometry f) →
  let f' := (frame_step point_bool e f).1 in
  roomy (geometry f')
  ∧ ((width f', height f') = (width f, height f)
     ∨ (frame_x f', frame_y f') = (frame_x f, frame_y f)).
Proof.
  intros [Hw Hh]. destruct f as [[[[x y] w] h] dp rs re c v].
  unfold roomy in *. simpl in Hw, Hh.
  destruct e as [lb pos g|pos g| |[]| |]; cbn [frame_step fst];
    try (split; [done|by left]).
  - unfold mousePressEvent. destruct lb; [|split; [done|by left]].
    destruct (truthy _); split; done || by left.
  - unfold mouseMoveEvent. cbn [_resizing _resize_edge _drag_pos geometry].
    destruct (rs && truthy re).
    + cbv zeta. unfold setGeometry, minimumWidth, minimumHeight in *.
      destruct (contains "right" _), (contains "bottom" _);
        cbn [geometry fst snd]; (split; [lia|by right]).
    + destruct (match dp with Some p => point_bool p | None => false end).
      * split; [done|by left].
      * cbv zeta. repeat case_bool_decide; split; done || by left.
Qed.

Lemma frame_run_snoc es e f :
  frame_run point_bool (es ++ [e]) f
  = let '(f1, out) := frame_run point_bool es f in
    let '(f', s) := frame_step point_bool e f1 in
    (f', (out ++ match s with Some s => [s] | None => [] end)%list).
Proof.
  unfold frame_run. rewrite foldl_app. simpl.
  by destruct (foldl _ _ es) as [f1 out].
Qed.

Lemma frame_step_signal e f x y w h :
  (frame_step point_bool e f).2 = Some (region_selected x y w h) →
  geometry f = (x, y, w, h) ∧ visible (frame_step point_bool e f).1 = false.
Proof.
  destruct f as [[[[x0 y0] w0] h0] dp rs re c v].
  destruct e as [lb pos g|pos g| |[]| |]; cbn; intros H; try done;
    by inversion H.
Qed.

Lemma frame_step_visible e f :
  match (frame_step point_bool e f).2 with
  | None => visible (frame_step point_bool e f).1 = visible f
  | Some _ => visible (frame_step point_bool e f).1 = false
  end.
Proof.
  destruct e as [lb pos g|pos g| |[]| |]; cbn; try done.
  - unfold mousePressEvent. destruct lb; [|done]. by destruct (truthy _).
  - unfold mouseMoveEvent. destruct (_ && _); [done|].
    destruct (match _drag_pos f with Some p => point_bool p | None => false end);
      [done|].
    cbv zeta. by repeat case_bool_decide.
Qed.

(** X15: the selection frame never gets smaller than its
    minimum size.  After any mouse events, key presses and clicks the frame
    is at least 100 wide and 50 high; every region it has emitted with
    [region_selected] has that size at least, so is not empty; and one more
    event changes the position of the frame or its size, never both. *)
Theorem frame_selection_roomy es :
  let r := frame_run point_bool es new_frame in
  roomy (geometry r.1)
  ∧ (∀ x y w h, region_selected x y w h ∈ r.2 →
       (minimumWidth ≤ w)%Z ∧ (minimumHeight ≤ h)%Z
       ∧ ¬ empty_region (x, y, w, h))
  ∧ ∀ e, let f' := (frame_step point_bool e r.1).1 in
      (width f', height f') = (width r.1, height r.1)
      ∨ (frame_x f', frame_y f') = (frame_x r.1, frame_y r.1).
Proof.
  cbv zeta.
  assert (H : roomy (geometry (frame_run point_bool es new_frame).1)
              ∧ ∀ x y w h,
                  region_selected x y w h
                    ∈ (frame_run point_bool es new_frame).2 →
                  (minimumWidth ≤ w)%Z ∧ (minimumHeight ≤ h)%Z
                  ∧ ¬ empty_region (x, y, w, h)).
  { induction es as [|e es IH] using rev_ind.
    { split; [unfold roomy, minimumWidth, minimumHeight; simpl; lia|].
      intros x y w h Hin. by apply elem_of_nil in Hin. }
    rewrite frame_run_snoc.
    destruct (frame_run point_bool es new_frame) as [f1 out].
    simpl in IH. destruct IH as [Hroomy Hout].
    pose proof (frame_step_size e f1 Hroomy) as [Hr' _].
    pose proof (frame_step_signal e f1) as Hsig.
    destruct (frame_step point_bool e f1) as [f' s]. simpl in *.
    split; [done|]. intros x y w h Hin.
    apply elem_of_app in Hin as [Hin|Hin]; [by apply Hout|].
    destruct s as [s|]; [|by apply elem_of_nil in Hin].
    apply list_elem_of_singleton in Hin. subst s.
    destruct (Hsig x y w h eq_refl) as [Hg _]. rewrite Hg in Hroomy.
    destruct Hroomy as [Hw Hh]. simpl in Hw, Hh.
    split; [done|]. split; [done|].
    unfold empty_region, minimumWidth, minimumHeight in *. simpl. lia. }
  destruct H as [Hroomy Hout]. split; [done|]. split; [done|].
  intros e. by apply frame_step_size.
Qed.
End FrameFacts.

(** ** The window in a session *)

Section TickSteps.
Context {Image : Type}.
Variable grab : Region → exn + Image.
Variable extract : Image → exn + string.

(** What a tick does with a region set, case by case. *)
Lemma tick_with_region now (w : MainWindow Image) r :
  _region (mw_capture w) = Some r →
  _on_capture_tick grab extract now w =
  match grab r with
  | inl e => (inl e, set_log Image (log w ++ [CallGrab r])%list w)
  | inr img =>
      match extract img with
      | inl e =>
          (inl e, set_log Image (log w ++ [CallGrab r; CallOCR img])%list w)
      | inr text =>
          let l := (log w ++ [CallGrab r; CallOCR img; CallAdd text])%list in
          let '(added, p) := add_text now text (processor w) in
          (inr tt,
           if added then
             {| mw_capture := mw_capture w; processor := p;
                result_text := (result_text w ++ [text])%list;
                stats_label := str_of_nat (len p) +:+ " subtitle(s) captured";
                log := l |}
           else
             {| mw_capture := mw_capture w; processor := p;
                result_text := result_text w;
                stats_label := stats_label w; log := l |})
      end
  end.
Proof.
  intros Hr. unfold _on_capture_tick. rewrite bind_unfold. unfold gets.
  rewrite bind_unfold. unfold logged at 1.
  rewrite (capture_set grab (mw_capture w) r (log w) Hr).
  destruct (grab r) as [e|img]; [done|].
  rewrite bind_unfold. unfold logged at 1, perform.
  rewrite bind_unfold. unfold modify at 1.
  destruct (extract img) as [e|text]; simpl.
  { unfold raise. by rewrite <- app_assoc. }
  unfold ret. rewrite bind_unfold. unfold processor_add_text.
  rewrite bind_unfold. unfold logged, modify, on_processor. simpl.
  destruct (add_text now text (processor w)) as [[] p]; simpl.
  - rewrite bind_unfold. simpl. unfold _update_stats, modify. simpl.
    by rewrite <- !app_assoc.
  - by rewrite <- !app_assoc.
Qed.
End TickSteps.

Section Session.
Variable point_bool : Point → bool.
Variable grab : Region → exn + Bitmap.
Context {Prepared : Type}.
Variable enhance : Bitmap → Prepared.
Variable raw : Bitmap → Prepared.
Variable image_to_string : Prepared → string → string → tesseract_answer.

Local Abbreviation tick := (app_tick grab Prepared enhance raw image_to_string).
Local Abbreviation step :=
  (handle point_bool grab Prepared enhance raw image_to_string).

Lemma tick_keeps_controls now app :
  ctl (tick now app).2 = ctl app
  ∧ mw_capture (win (tick now app).2) = mw_capture (win app)
  ∧ overlay (tick now app).2 = overlay app.
Proof.
  unfold app_tick.
  destruct (_region (mw_capture (win app))) as [r|] eqn:Hr.
  - rewrite (tick_with_region _ _ _ _ r Hr).
    destruct (grab r) as [e|img]; [done|].
    destruct (extract_text _ _ _ _ _ img) as [e|text]; [done|].
    cbv zeta. by destruct (add_text now text _) as [[] p].
  - unfold _on_capture_tick. rewrite bind_unfold. unfold gets.
    rewrite bind_unfold. unfold logged.
    rewrite (capture_unset grab _ _ Hr). by rewrite set_log_same.
Qed.

Lemma save_to_file_unfold chosen app :
  _save_to_file chosen app =
  if bool_decide (len (processor (win app)) = 0)
  then (inr tt, with_ctl (show_dialog (Information "Nothing to Save")) app)
  else
    let format_type := currentText (format_combo (ctl app)) in
    let asked :=
      show_dialog
        (match format_combo (ctl app) with
         | Srt => SaveFileName "subtitles.srt" "SRT Files (*.srt)"
         | Txt => SaveFileName "subtitles.txt" "Text Files (*.txt)"
         end) (ctl app) in
    if is_empty chosen
    then (inr tt, {| win := win app; ctl := asked; overlay := overlay app |})
    else
      let '(r, s) := save chosen format_type
                       {| self := processor (win app); fs := disk asked |} in
      let w := set_processor (self s) (win app) in
      match r with
      | inl e => (inl e, {| win := w; ctl := set_disk (fs s) asked;
                            overlay := overlay app |})
      | inr _ =>
          (inr tt,
           {| win := w;
              ctl := show_dialog (Information "Saved")
                       (showMessage ("Saved to " +:+ chosen)
                          (set_disk (fs s) asked));
              overlay := overlay app |})
      end.
Proof.
  unfold _save_to_file. rewrite bind_unfold. unfold gets at 1.
  cbv beta iota.
  destruct (bool_decide (len (processor (win app)) = 0)); [done|].
  rewrite bind_unfold. unfold gets. cbv beta iota zeta.
  destruct app as [w c o]. destruct c.
  destruct format_combo0; cbn [ctl win overlay format_combo currentText].
  - change (bool_decide ("txt" = "srt")) with false. cbv iota beta.
    rewrite bind_unfold. unfold modify at 1. cbv beta iota.
    destruct (is_empty chosen); [done|]. cbn [negb].
    rewrite bind_unfold. unfold processor_save. unfold with_ctl.
    cbn [win ctl overlay disk show_dialog].
    destruct (save chosen "txt" _) as [[e|[]] s]; [done|].
    by rewrite bind_unfold.
  - change (bool_decide ("srt" = "srt")) with true. cbv iota beta.
    rewrite bind_unfold. unfold modify at 1. cbv beta iota.
    destruct (is_empty chosen); [done|]. cbn [negb].
    rewrite bind_unfold. unfold processor_save. unfold with_ctl.
    cbn [win ctl overlay disk show_dialog].
    destruct (save chosen "srt" _) as [[e|[]] s]; [done|].
    by rewrite bind_unfold.
Qed.

Lemma save_to_file_keeps chosen app :
  win (_save_to_file chosen app).2 = win app
  ∧ overlay (_save_to_file chosen app).2 = overlay app
  ∧ let c := ctl (_save_to_file chosen app).2 in
    is_running c = is_running (ctl app)
    ∧ region_set c = region_set (ctl app)
    ∧ start_btn c = start_btn (ctl app)
    ∧ stop_btn c = stop_btn (ctl app)
    ∧ select_btn c = select_btn (ctl app)
    ∧ timer_active c = timer_active (ctl app)
    ∧ timer_interval c = timer_interval (ctl app)
    ∧ interval_slider c = interval_slider (ctl app)
    ∧ brightness_slider c = brightness_slider (ctl app)
    ∧ brightness_label c = brightness_label (ctl app)
    ∧ window_visible c = window_visible (ctl app)
    ∧ ocr c = ocr (ctl app).
Proof.
  rewrite save_to_file_unfold.
  destruct (bool_decide _); [by destruct app as [[] c o]|]. cbv zeta.
  destruct (is_empty chosen); [done|].
  pose proof (save_keeps_self chosen (currentText (format_combo (ctl app)))
                {| self := processor (win app);
                   fs := disk (show_dialog
                     (match format_combo (ctl app) with
                      | Srt => SaveFileName "subtitles.srt" "SRT Files (*.srt)"
                      | Txt => SaveFileName "subtitles.txt" "Text Files (*.txt)"
                      end) (ctl app)) |}) as Hk.
  destruct (save _ _ _) as [[e|[]] s]; simpl in *;
    rewrite Hk; by destruct app as [[] c o].
Qed.

(** Closes the parts of the invariant that a slot leaves as they were. *)
Ltac controls_step :=
  repeat split; try done; try tauto;
  try match goal with
      | H : roomy ?r |- _ => by destruct H
      | H : ∀ r, ?x = Some r → roomy r, E : ?x = Some _ |- _ =>
          by destruct (H _ E)
      end.

Lemma running_controls_ok tesseract w app :
  running point_bool grab Prepared enhance raw image_to_string tesseract w
    app → controls_ok app.
Proof.
  induction 1 as [|app e _ IH He].
  { unfold controls_ok. simpl. repeat split; try done; try lia.
    all: unfold minimumWidth, minimumHeight; simpl; lia. }
  unfold controls_ok in *. cbv zeta in *.
  destruct IH as (I1 & I2 & I3 & I4 & I5 & I6 & I7 & I8 & I9 & I10 & I11
                  & I12 & I13 & I14 & I15).
  destruct e as [|fe| | |v|v|f|now| |chosen]; simpl in He; simpl handle.
  - (* ClickSelect *)
    destruct He as [Hv Hs]. rewrite Hs in I3.
    destruct (is_running (ctl app)) eqn:Hrun; [done|].
    unfold _select_region. simpl. rewrite Hrun.
    controls_step.
  - (* OnFrame *)
    rewrite He in I5. simpl in I5.
    destruct (is_running (ctl app)) eqn:Hrun.
    { specialize (I8 eq_refl). congruence. }
    unfold on_frame.
    pose proof (frame_step_size point_bool fe (overlay app) I6) as [Hroomy _].
    pose proof (frame_step_visible point_bool fe (overlay app)) as Hvis.
    pose proof (frame_step_signal point_bool fe (overlay app)) as Hsig.
    destruct (frame_step point_bool fe (overlay app)) as [fr [[x y rw rh| ]|]];
      simpl in *.
    + destruct (Hsig x y rw rh eq_refl) as [Hg _]. rewrite Hg in I6.
      rewrite Hrun, Hvis.
      controls_step.
      all: match goal with
           | E : Some _ = Some _ |- _ => inversion E; subst; by destruct I6
           end.
    + rewrite Hrun, Hvis. controls_step.
    + rewrite Hrun, Hvis, He. controls_step.
  - (* ClickStart *)
    destruct He as [Hv Hs]. rewrite Hs in I4.
    symmetry in I4. apply andb_true_iff in I4 as [Hreg Hrun].
    apply negb_true_iff in Hrun.
    unfold _start_capture. rewrite Hreg. simpl.
    rewrite Hreg.
    controls_step.
  - (* ClickStop *)
    destruct He as [Hv Hs]. rewrite Hs in I2. symmetry in I2.
    unfold _stop_capture, with_ctl. simpl.
    rewrite (I9 I2).
    controls_step.
  - (* SlideInterval *)
    destruct He as [Hv Hrange].
    unfold _on_interval_changed, with_ctl. simpl.
    controls_step; try lia.
    intros Hrun. by rewrite Hrun.
  - (* SlideBrightness *)
    destruct He as [Hv Hrange].
    unfold _on_brightness_changed, with_ctl. simpl.
    controls_step; try lia.
    rewrite I15. reflexivity.
  - (* PickFormat *)
    unfold pick_format, with_ctl. simpl.
    controls_step.
  - (* TimerTick *)
    destruct (tick_keeps_controls now app) as (-> & -> & ->).
    controls_step.
  - (* ClickClear *)
    unfold _clear_results. simpl.
    controls_step.
  - (* ClickSave *)
    destruct (save_to_file_keeps chosen app)
      as (-> & -> & -> & -> & -> & -> & -> & -> & -> & -> & -> & -> & -> & ->).
    controls_step.
Qed.

Lemma tick_outcome now app :
  let w := win app in
  let w' := win (tick now app).2 in
  (processor w' = processor w ∧ result_text w' = result_text w
   ∧ stats_label w' = stats_label w)
  ∨ ∃ text,
      strip text = text
      ∧ add_text now text (processor w) = (true, processor w')
      ∧ result_text w' = (result_text w ++ [text])%list
      ∧ stats_label w'
        = str_of_nat (len (processor w')) +:+ " subtitle(s) captured".
Proof.
  cbv zeta. unfold app_tick.
  destruct (_region (mw_capture (win app))) as [r|] eqn:Hr.
  - rewrite (tick_with_region _ _ _ _ r Hr).
    destruct (grab r) as [e|img]; [by left|].
    unfold extract_text.
    destruct (image_to_string _ _ _) as [text| |e]; [|by left|by left].
    cbv zeta.
    destruct (add_text now (strip text) _) as [[] p] eqn:Ha; simpl.
    + right. exists (strip text). by rewrite strip_idem.
    + left. rewrite add_text_unfold in Ha.
      destruct (is_empty _); [by inversion Ha|].
      destruct (_is_duplicate _ _); [by inversion Ha|done].
  - left. unfold _on_capture_tick. rewrite bind_unfold. unfold gets.
    rewrite bind_unfold. unfold logged.
    by rewrite (capture_unset grab _ _ Hr).
Qed.

Lemma run_result effs s :
  (for_each effs io s).1 = inr tt ∨ (for_each effs io s).1 = inl OSError.
Proof.
  revert s. induction effs as [|eff effs IH]; intros s; [by left|].
  rewrite for_each_cons.
  destruct s as [p [fl [|[] sched]]]; simpl; [apply IH|by right|apply IH].
Qed.

Lemma save_result path format s :
  (save path format s).1 = inr tt ∨ (save path format s).1 = inl OSError.
Proof. rewrite save_run. apply run_result. Qed.

Lemma running_foldl tesseract w es app :
  running point_bool grab Prepared enhance raw image_to_string tesseract w
    app →
  enabled_all point_bool grab Prepared enhance raw image_to_string app es →
  running point_bool grab Prepared enhance raw image_to_string tesseract w
    (foldl (λ app e, step e app) app es).
Proof.
  revert app. induction es as [|e es IH]; intros app Happ Hes; [done|].
  destruct Hes as [He Hes]. simpl. apply IH; [by constructor|done].
Qed.


(** X17: in every state of a session the OCR engine is
    the start-up engine (language eng, subtitle mode on) with the value of
    the brightness slider as threshold; the threshold lies between 150 and
    255 and is what the brightness label shows. *)
Theorem session_ocr_settings tesseract w app :
  running point_bool grab Prepared enhance raw image_to_string tesseract w
    app →
  let c := ctl app in
  ocr c = set_subtitle_mode true (brightness_slider c) (new_engine "eng")
  ∧ (150 ≤ brightness_threshold (ocr c) ≤ 255)%Z
  ∧ brightness_label c = str_of_Z (brightness_threshold (ocr c)).
Proof.
  intros H. apply running_controls_ok in H.
  destruct H as (_ & _ & _ & _ & _ & _ & _ & _ & _ & _ & _ & _ & I13 & I14
                 & I15).
  cbv zeta. rewrite I15. simpl. done.
Qed.

(** X18: in a session a timer tick always finds a region.
    While the timer is active the capture region is set and at least 100 by
    50, hence not empty, and the tick calls the screen grabber on it: a
    tick never takes the [None] branch of [capture()]. *)
Theorem session_tick_grabs tesseract w app now :
  running point_bool grab Prepared enhance raw image_to_string tesseract w
    app →
  timer_active (ctl app) = true →
  ∃ r rest,
    _region (mw_capture (win app)) = Some r
    ∧ roomy r ∧ ¬ empty_region r
    ∧ log (win (tick now app).2) = (log (win app) ++ CallGrab r :: rest)%list.
Proof.
  intros H Ht. apply running_controls_ok in H.
  destruct H as (I1 & _ & _ & _ & _ & _ & I7 & _ & I9 & I10 & _).
  rewrite I1 in Ht. apply I9, I10 in Ht as [r Hr].
  pose proof (I7 r Hr) as Hroomy.
  assert (Hne : ¬ empty_region r).
  { destruct Hroomy as [Hw Hh].
    unfold empty_region, minimumWidth, minimumHeight in *. lia. }
  exists r. unfold app_tick. rewrite (tick_with_region _ _ _ _ r Hr).
  destruct (grab r) as [e|img]; [by exists []|].
  destruct (extract_text _ _ _ _ _ img) as [e|text]; [by eexists|].
  cbv zeta. destruct (add_text now text _) as [[] p]; by eexists.
Qed.

(** X19: in every state of a session the result pane lists
    exactly the texts of the accumulator ([result_text] is
    [get_all_texts()]), the statistics label shows the number of entries
    (or still its start-up text, with no entry), and the accumulator is in
    a reachable state under the default threshold 0.8, so that what holds
    of reachable accumulators holds in the running program. *)
Theorem session_display tesseract w app :
  running point_bool grab Prepared enhance raw image_to_string tesseract w
    app →
  let p := processor (win app) in
  result_text (win app) = get_all_texts p
  ∧ (stats_label (win app) = str_of_nat (len p) +:+ " subtitle(s) captured"
     ∨ stats_label (win app) = "0 subtitles captured" ∧ len p = 0)
  ∧ reachable default_threshold p.
Proof.
  cbv zeta. induction 1 as [|app e _ (IH1 & IH2 & IH3) He].
  { split; [done|]. split; [by right|constructor]. }
  destruct e as [|fe| | |v|v|f|now| |chosen]; simpl handle;
    [done| | |done|done|done|done| | |].
  - (* OnFrame *)
    unfold on_frame.
    destruct (frame_step point_bool fe (overlay app)) as [fr [[x y rw rh| ]|]];
      done.
  - (* ClickStart *)
    unfold _start_capture. by destruct (negb _).
  - (* TimerTick *)
    destruct (tick_outcome now app) as [(-> & -> & ->)|(text & Hs & Ha & -> & ->)];
      [done|].
    split; [|split; [by left|]].
    + rewrite add_text_unfold, Hs in Ha.
      destruct (is_empty text); [by inversion Ha|].
      destruct (_is_duplicate _ text); [by inversion Ha|].
      inversion Ha as [Hp]. unfold get_all_texts. simpl.
      rewrite map_app. simpl. by rewrite IH1.
    + replace (processor (win (tick now app).2))
        with (apply_op (processor (win app)) (OpAdd now text))
        by (simpl; by rewrite Ha).
      by constructor.
  - (* ClickClear *)
    unfold _clear_results. simpl. split; [done|]. split; [by left|].
    by apply (reachable_step _ _ OpClear).
  - (* ClickSave *)
    destruct (save_to_file_keeps chosen app) as (-> & _). done.
Qed.

(** X20: [_save_to_file] case by case, for any state and
    any answer of the file dialog.  The accumulator and the result pane
    are never changed.  With no entry only the message Nothing to Save is
    shown: no file dialog, no disk access.  With the dialog cancelled
    nothing is written and the status stays.  Otherwise the disk is what
    [save] leaves for the chosen path and the format of the combo box, and
    the status Saved to ... and the message Saved appear exactly when
    [save] did not raise; when it raised, the [OSError] comes out of the
    slot. *)
Theorem save_to_file_cases chosen app :
  let r := _save_to_file chosen app in
  let c := ctl app in
  let c' := ctl r.2 in
  let format_type := currentText (format_combo c) in
  let asked :=
    match format_combo c with
    | Srt => SaveFileName "subtitles.srt" "SRT Files (*.srt)"
    | Txt => SaveFileName "subtitles.txt" "Text Files (*.txt)"
    end in
  let exported :=
    save chosen format_type {| self := processor (win app); fs := disk c |} in
  win r.2 = win app
  ∧ (len (processor (win app)) = 0 →
     r.1 = inr tt ∧ disk c' = disk c ∧ status c' = status c
     ∧ dialogs c' = (dialogs c ++ [Information "Nothing to Save"])%list)
  ∧ (len (processor (win app)) ≠ 0 → chosen = "" →
     r.1 = inr tt ∧ disk c' = disk c ∧ status c' = status c
     ∧ dialogs c' = (dialogs c ++ [asked])%list)
  ∧ (len (processor (win app)) ≠ 0 → chosen ≠ "" →
     r.1 = exported.1 ∧ disk c' = fs exported.2
     ∧ (r.1 = inr tt ∧ status c' = "Saved to " +:+ chosen
        ∧ dialogs c' = (dialogs c ++ [asked; Information "Saved"])%list
        ∨ r.1 = inl OSError ∧ status c' = status c
          ∧ dialogs c' = (dialogs c ++ [asked])%list)).
Proof.
  cbv zeta. split; [apply save_to_file_keeps|].
  rewrite save_to_file_unfold. split; [|split].
  - intros Hn. by rewrite bool_decide_eq_true_2.
  - intros Hn ->. rewrite bool_decide_eq_false_2 by done. cbv zeta.
    by change (is_empty "") with true.
  - intros Hn Hc. rewrite bool_decide_eq_false_2 by done. cbv zeta.
    apply is_empty_false in Hc. rewrite Hc.
    change (disk (show_dialog ?d ?c)) with (disk c).
    pose proof (save_result chosen (currentText (format_combo (ctl app)))
      {| self := processor (win app); fs := disk (ctl app) |}) as Hres.
    destruct (save _ _ _) as [[e|[]] s]; simpl in *.
    + destruct Hres as [?|Hres]; [done|]. inversion Hres.
      split; [done|]. split; [done|]. by right.
    + split; [done|]. split; [done|]. left. by rewrite <- app_assoc.
Qed.

End Session.

Lemma sample_app_running :
  running not_null grab_sample Bitmap id id read_sample true
    {| files := ∅; faults := [] |} sample_app.
Proof.
  apply running_foldl; [constructor|].
  vm_compute. repeat split.
Qed.


Lemma session_ocr_settings_witness :
  brightness_threshold (ocr (ctl sample_app)) = 240%Z.
Proof.
  pose proof (session_ocr_settings not_null grab_sample id id read_sample
                true _ sample_app sample_app_running) as (H & _ & _).
  rewrite H. reflexivity.
Defined.

Lemma session_tick_grabs_witness :
  ∃ rest,
    log (win (app_tick grab_sample Bitmap id id read_sample noon sample_app).2)
    = (log (win sample_app) ++ CallGrab (50, 620, 520, 50)%Z :: rest)%list.
Proof.
  destruct (session_tick_grabs not_null grab_sample id id read_sample true _
              sample_app noon sample_app_running eq_refl)
    as (r & rest & Hr & _ & _ & Hlog).
  exists rest. vm_compute in Hr. injection Hr as <-. exact Hlog.
Defined.

Lemma session_display_witness :
  result_text (win sample_app) = ["Hello"]
  ∧ reachable default_threshold (processor (win sample_app)).
Proof.
  pose proof (session_display not_null grab_sample id id read_sample true _
                sample_app sample_app_running) as (H1 & _ & H3).
  split; [rewrite H1; reflexivity|exact H3].
Defined.

(** ** A tick that fails *)

Section TickFailure.
Variable grab : Region → exn + Bitmap.
Context {Prepared : Type}.
Variable enhance : Bitmap → Prepared.
Variable raw : Bitmap → Prepared.
Variable image_to_string : Prepared → string → string → tesseract_answer.

Local Abbreviation tick := (app_tick grab Prepared enhance raw image_to_string).

(** X21: a tick that fails changes nothing but the call log.
    When a tick raises, the accumulator, the result pane, the statistics
    label and the controls are what they were; a region was set, and
    either the screen grabber raised that exception and no OCR was tried,
    or the grabber returned a picture and [extract_text] raised it;
    [add_text] was not called in either case. *)
Theorem tick_failure now app e :
  (tick now app).1 = inl e →
  let w := win app in
  let w' := win (tick now app).2 in
  processor w' = processor w
  ∧ result_text w' = result_text w
  ∧ stats_label w' = stats_label w
  ∧ ctl (tick now app).2 = ctl app
  ∧ ∃ r, _region (mw_capture w) = Some r
      ∧ (grab r = inl e ∧ log w' = (log w ++ [CallGrab r])%list
         ∨ ∃ img, grab r = inr img
             ∧ extract_text enhance raw image_to_string (ocr (ctl app)) true img
               = inl e
             ∧ log w' = (log w ++ [CallGrab r; CallOCR img])%list).
Proof.
  cbv zeta. unfold app_tick.
  destruct (_region (mw_capture (win app))) as [r|] eqn:Hr.
  - rewrite (tick_with_region _ _ _ _ r Hr).
    destruct (grab r) as [e'|img] eqn:Hg.
    { simpl. intros [= ->]. repeat split; try done. exists r. split; [done|].
      by left. }
    destruct (extract_text _ _ _ _ _ img) as [e'|text] eqn:Ht.
    { simpl. intros [= ->]. repeat split; try done. exists r. split; [done|].
      right. by exists img. }
    cbv zeta. by destruct (add_text now text _) as [[] p].
  - unfold _on_capture_tick. rewrite bind_unfold. unfold gets.
    rewrite bind_unfold. unfold logged.
    by rewrite (capture_unset grab _ _ Hr).
Qed.
End TickFailure.

Lemma tick_failure_witness :
  processor (win (app_tick grab_refused Bitmap id id read_sample noon
                    sample_app).2)
  = processor (win sample_app).
Proof.
  refine (proj1 (tick_failure grab_refused id id read_sample noon sample_app
                   ScreenShotError _)).
  by vm_compute.
Defined.
